(** * fastf1_utils: derived per-lap views and chart renderers

    A shallow embedding of [new_utils.py] and [standard_plots.py].

    Tables are lists of rows in row order.  The session's lap table carries
    the default positional index (0, 1, 2, ...), so an index label is the
    position of the row in the session table; derived frames keep the label
    of the row they come from, as [DataFrame.loc] and boolean masks do.

    Durations and timestamps ([LapTime], [Time], cumulative times) are pandas
    [Timedelta] values, written here as integers of nanoseconds.

    The renderers and the object store are modelled on complete tables: the
    [LapTime], [Time], [LapNumber], [Driver] and [TrackStatus] cells are all
    present and durations are added as integers.  The stint and the compound
    may be missing, as [groupby] drops the rows whose key is incomplete, and
    so may the pit timestamps, which the code tests with [isnull].  The
    module [Raw] models the view builders on tables whose lap time may be
    missing, with sums in 64 bits; the last part of the file shows that on a
    complete table without overflow both give the same views. *)

From Stdlib Require Import List ZArith QArith String Bool Lia Permutation Sorted.
From Stdlib Require Import OrdersEx.
Import ListNotations.
Open Scope string_scope.
Open Scope list_scope.
Open Scope Z_scope.

Set Implicit Arguments.

(* ------------------------------------------------------------------ *)
(** ** Data model *)

(** One row of [session.laps]. *)
Module Lap.
Record t := mk {
  Driver      : string;
  LapNumber   : Z;
  LapTime     : Z;
  Time        : Z;
  Stint       : option Z;
  Compound    : option string;
  PitInTime   : option Z;
  PitOutTime  : option Z;
  TrackStatus : string
}.
End Lap.

(** The seven readings of a weather sample.  They are carried along, never
    computed on, by the functions modelled here. *)
Record Readings := mkReadings {
  AirTemp       : Q;
  Humidity      : Q;
  Pressure      : Q;
  Rainfall      : Q;
  TrackTemp     : Q;
  WindDirection : Q;
  WindSpeed     : Q
}.

(** One row of [session.weather_data]. *)
Module Weather.
Record t := mk {
  Time     : Z;
  readings : Readings
}.
End Weather.

(** A row of the working copy [laps] once the [CumulativeTime] column has
    been assigned: the index label, the session's columns, the new cell. *)
Record Row := mkRow {
  label          : nat;
  lap            : Lap.t;
  CumulativeTime : Z
}.

Definition Driver (r : Row) : string := Lap.Driver (lap r).
Definition LapNumber (r : Row) : Z := Lap.LapNumber (lap r).
Definition TrackStatus (r : Row) : string := Lap.TrackStatus (lap r).

(* ------------------------------------------------------------------ *)
(** ** Table primitives *)

(** [sort_values] and the key order of [groupby]: a stable insertion sort. *)
Section Sorting.
Variable A : Type.
Variable leb : A -> A -> bool.

Fixpoint insert_sorted (x : A) (l : list A) : list A :=
  match l with
  | [] => [x]
  | y :: l' => if leb x y then x :: l else y :: insert_sorted x l'
  end.

Fixpoint sort (l : list A) : list A :=
  match l with
  | [] => []
  | x :: l' => insert_sorted x (sort l')
  end.
End Sorting.

(** The group keys of a [groupby]: the distinct values of the key column, in
    ascending order. *)
Definition group_keys (col : list Z) : list Z :=
  sort Z.leb (nodup Z.eq_dec col).

(** [groupby('Driver')['LapTime'].cumsum()]: the running total of each driver,
    laid out in row order.  [acc] holds the totals reached so far. *)
Fixpoint cumsum_by_driver (acc : string -> Z) (rows : list Lap.t) : list Z :=
  match rows with
  | [] => []
  | r :: rs =>
      let c := acc (Lap.Driver r) + Lap.LapTime r in
      c :: cumsum_by_driver
             (fun d => if String.eqb d (Lap.Driver r) then c else acc d) rs
  end.

Definition no_total : string -> Z := fun _ => 0.

(** [laps['CumulativeTime'] = ...] on a copy of the session table. *)
Fixpoint set_column (i : nat) (rows : list Lap.t) (col : list Z) : list Row :=
  match rows, col with
  | r :: rs, c :: cs => mkRow i r c :: set_column (S i) rs cs
  | _, _ => []
  end.

Definition with_cumulative (rows : list Lap.t) : list Row :=
  set_column 0 rows (cumsum_by_driver no_total rows).

(** [idxmin] of one column over one group: the label of the first row that
    reaches the minimum. *)
Definition keep_min (best x : Row) : Row :=
  if CumulativeTime x <? CumulativeTime best then x else best.

Definition idxmin (g : list Row) : option nat :=
  match g with
  | [] => None
  | r :: g' => Some (label (fold_left keep_min g' r))
  end.

Definition group_of (n : Z) (laps : list Row) : list Row :=
  filter (fun r => LapNumber r =? n) laps.

(** [laps.groupby('LapNumber')['CumulativeTime'].idxmin()] *)
Definition groupby_LapNumber_idxmin (laps : list Row) : list nat :=
  flat_map (fun n => match idxmin (group_of n laps) with
                     | Some l => [l]
                     | None => []
                     end)
           (group_keys (map LapNumber laps)).

(** [laps.loc[labels]] *)
Definition loc (laps : list Row) (labels : list nat) : list Row :=
  flat_map (fun l => filter (fun r => Nat.eqb (label r) l) laps) labels.

Definition leader_laps (laps : list Row) : list Row :=
  loc laps (groupby_LapNumber_idxmin laps).

(** [leader_laps.loc[:, ["LapNumber", "TrackStatus"]]] *)
Definition track_status (laps : list Row) : list (Z * string) :=
  map (fun r => (LapNumber r, TrackStatus r)) (leader_laps laps).

(* ------------------------------------------------------------------ *)
(** ** Nearest-in-time join *)

(** [pd.merge_asof(..., direction='nearest')] on sorted inputs.  The backward
    search advances through the right table while the sample is at or before
    the left key and keeps the last sample passed; the forward search runs
    from the far end while the sample is at or after the key.  Between the
    two the smaller distance wins, the backward one on equal distance. *)
Fixpoint scan_while (p : Weather.t -> bool) (ws : list Weather.t)
         (passed : option Weather.t) : option Weather.t :=
  match ws with
  | [] => passed
  | w :: ws' => if p w then scan_while p ws' (Some w) else passed
  end.

Definition asof_backward (t : Z) (ws : list Weather.t) : option Weather.t :=
  scan_while (fun w => Weather.Time w <=? t) ws None.

Definition asof_forward (t : Z) (ws : list Weather.t) : option Weather.t :=
  scan_while (fun w => t <=? Weather.Time w) (rev ws) None.

Definition asof_nearest (t : Z) (ws : list Weather.t) : option Weather.t :=
  match asof_backward t ws, asof_forward t ws with
  | Some b, Some f =>
      if (t - Weather.Time b) <=? (Weather.Time f - t) then Some b else Some f
  | Some b, None => Some b
  | None, f => f
  end.

(** A row of the merged frame after the final column selection; the readings
    are absent where the join found no sample. *)
Record WeatherLap := mkWeatherLap {
  wl_LapNumber : Z;
  wl_readings  : option Readings
}.

Definition by_Time (a b : Row) : bool := Lap.Time (lap a) <=? Lap.Time (lap b).
Definition by_weather_Time (a b : Weather.t) : bool :=
  Weather.Time a <=? Weather.Time b.

Definition merge_asof_nearest (left : list Row) (right : list Weather.t)
  : list WeatherLap :=
  map (fun l => mkWeatherLap (LapNumber l)
                  (option_map Weather.readings
                     (asof_nearest (Lap.Time (lap l)) right)))
      left.

Definition weather_laps (laps : list Row) (weather_data : list Weather.t)
  : list WeatherLap :=
  merge_asof_nearest (sort by_Time (leader_laps laps))
                     (sort by_weather_Time weather_data).

(* ------------------------------------------------------------------ *)
(** ** Sessions, the object store and the effects of a call *)

(** A lap table as an object: its rows and, once assigned, the derived
    column.  [session.laps] is a reference to such an object; [copy]
    allocates a new one and item assignment updates one in place. *)
Record LapsFrame := mkFrame {
  frame_rows           : list Lap.t;
  frame_CumulativeTime : option (list Z)
}.

(** What the code reads of a loaded session: the lap table object, the
    weather table, the abbreviations of [session.drivers] in the order
    [session.get_driver] gives them, and the event heading
    "{year} {EventName}". *)
Record Session := mkSession {
  laps         : nat;
  weather_data : list Weather.t;
  drivers      : list string;
  event        : string
}.

Record World := mkWorld {
  heap   : list LapsFrame;
  stdout : list string
}.

(** A computation either raises ([None]) or returns a value and a world. *)
Definition M (A : Type) : Type := World -> option (A * World).

Definition ret {A} (a : A) : M A := fun w => Some (a, w).

Definition bind {A B} (c : M A) (k : A -> M B) : M B :=
  fun w => match c w with
           | Some (a, w') => k a w'
           | None => None
           end.

Notation "x <- c ;; k" := (bind c (fun x => k))
  (at level 61, c at next level, right associativity).
Notation "c ;; k" := (bind c (fun _ => k))
  (at level 61, right associativity).

Definition raise {A} : M A := fun _ => None.

Definition read (ref : nat) : M LapsFrame :=
  fun w => match nth_error (heap w) ref with
           | Some f => Some (f, w)
           | None => None
           end.

Definition copy (ref : nat) : M nat :=
  f <- read ref ;;
  fun w => Some (List.length (heap w), mkWorld (heap w ++ [f]) (stdout w)).

Fixpoint replace_nth (i : nat) (f : LapsFrame) (h : list LapsFrame)
  : list LapsFrame :=
  match h, i with
  | [], _ => []
  | _ :: h', O => f :: h'
  | g :: h', S i' => g :: replace_nth i' f h'
  end.

(** [frame['CumulativeTime'] = col], in place. *)
Definition setitem_CumulativeTime (ref : nat) (col : list Z) : M unit :=
  f <- read ref ;;
  fun w => Some (tt, mkWorld
                       (replace_nth ref (mkFrame (frame_rows f) (Some col))
                                    (heap w))
                       (stdout w)).

Definition print (line : string) : M unit :=
  fun w => Some (tt, mkWorld (heap w) (stdout w ++ [line])).

(** [session.load()] belongs to the data library; on a session that is
    already loaded it leaves the tables as they are. *)
Definition load (s : Session) : M unit := ret tt.

(** The rows of a frame whose [CumulativeTime] column is read. *)
Definition rows_of (f : LapsFrame) : M (list Row) :=
  match frame_CumulativeTime f with
  | Some col => ret (set_column 0 (frame_rows f) col)
  | None => raise
  end.

(** The first three statements shared by the functions that derive the
    cumulative time: copy the session table, assign the column. *)
Definition copy_with_cumulative (s : Session) : M (list Row) :=
  ref <- copy (laps s) ;;
  f <- read ref ;;
  setitem_CumulativeTime ref (cumsum_by_driver no_total (frame_rows f)) ;;
  f' <- read ref ;;
  rows_of f'.

Definition get_track_status_by_lap (s : Session) : M (list (Z * string)) :=
  load s ;;
  laps <- copy_with_cumulative s ;;
  ret (track_status laps).

Definition get_weather_data_by_lap (s : Session) : M (list WeatherLap) :=
  load s ;;
  laps <- copy_with_cumulative s ;;
  ret (weather_laps laps (weather_data s)).

(* ------------------------------------------------------------------ *)
(** ** The drawing surface *)

Definition Style : Type := (string * string)%type.

Record Span := mkSpan {
  xmin : Q; xmax : Q; span_color : string; span_alpha : Q
}.

Record Line := mkLine {
  xdata : list Z; ydata : list Q; line_label : string; line_style : Style
}.

Record Bar := mkBar {
  bar_y : string; bar_width : Z; bar_left : Z; bar_color : string
}.

Record Text := mkText {
  text_x : Q; text_y : string; text_s : string
}.

Record Axes := mkAxes {
  title    : string;
  xlabel   : string;
  ylabel   : string;
  spans    : list Span;
  lines    : list Line;
  bars     : list Bar;
  texts    : list Text;
  legend   : option (list string);
  grid     : option bool;
  inverted : bool
}.

(** [plt.subplots(...)]: a fresh, empty surface. *)
Definition subplots : Axes :=
  mkAxes "" "" "" [] [] [] [] None None false.

Definition set_labels (t x y : string) (ax : Axes) : Axes :=
  mkAxes t x y (spans ax) (lines ax) (bars ax) (texts ax)
         (legend ax) (grid ax) (inverted ax).

Definition axvspan (x0 x1 : Q) (color : string) (alpha : Q) (ax : Axes)
  : Axes :=
  mkAxes (title ax) (xlabel ax) (ylabel ax)
         (spans ax ++ [mkSpan x0 x1 color alpha])
         (lines ax) (bars ax) (texts ax) (legend ax) (grid ax) (inverted ax).

Definition plot (xs : list Z) (ys : list Q) (lbl : string) (st : Style)
           (ax : Axes) : Axes :=
  mkAxes (title ax) (xlabel ax) (ylabel ax) (spans ax)
         (lines ax ++ [mkLine xs ys lbl st])
         (bars ax) (texts ax) (legend ax) (grid ax) (inverted ax).

Definition barh (y : string) (width left : Z) (color : string) (ax : Axes)
  : Axes :=
  mkAxes (title ax) (xlabel ax) (ylabel ax) (spans ax) (lines ax)
         (bars ax ++ [mkBar y width left color])
         (texts ax) (legend ax) (grid ax) (inverted ax).

Definition text (x : Q) (y s : string) (ax : Axes) : Axes :=
  mkAxes (title ax) (xlabel ax) (ylabel ax) (spans ax) (lines ax) (bars ax)
         (texts ax ++ [mkText x y s])
         (legend ax) (grid ax) (inverted ax).

Definition set_legend (entries : list string) (ax : Axes) : Axes :=
  mkAxes (title ax) (xlabel ax) (ylabel ax) (spans ax) (lines ax) (bars ax)
         (texts ax) (Some entries) (grid ax) (inverted ax).

Definition set_grid (b : bool) (ax : Axes) : Axes :=
  mkAxes (title ax) (xlabel ax) (ylabel ax) (spans ax) (lines ax) (bars ax)
         (texts ax) (legend ax) (Some b) (inverted ax).

Definition invert_yaxis (ax : Axes) : Axes :=
  mkAxes (title ax) (xlabel ax) (ylabel ax) (spans ax) (lines ax) (bars ax)
         (texts ax) (legend ax) (grid ax) (negb (inverted ax)).

(** [Timedelta.total_seconds()] *)
Definition total_seconds (td : Z) : Q := td # 1000000000.

(** [Series.isin(values)] on one cell. *)
Definition isin (cell : string) (values : list string) : bool :=
  existsb (String.eqb cell) values.

(** [Series.unique()]: the distinct values in order of first appearance. *)
Fixpoint unique (l : list string) : list string :=
  match l with
  | [] => []
  | x :: l' => x :: filter (fun y => negb (String.eqb y x)) (unique l')
  end.

(* ------------------------------------------------------------------ *)
(** ** Highlight overlays *)

(** [ax.axvspan(lap - 0.5, lap + 0.5, color=..., alpha=...)] *)
Definition lap_band (color : string) (alpha : Q) (ax : Axes) (lap : Z)
  : Axes :=
  axvspan (inject_Z lap - (1 # 2))%Q (inject_Z lap + (1 # 2))%Q color alpha ax.

Definition sc_laps (track_status_df : list (Z * string)) : list Z :=
  map fst (filter (fun r => isin (snd r) ["4"]) track_status_df).

Definition vsc_laps (track_status_df : list (Z * string)) : list Z :=
  map fst (filter (fun r => isin (snd r) ["6"; "7"]) track_status_df).

Definition plot_track_status_highlights (ax : Axes) (s : Session) : M Axes :=
  track_status_df <- get_track_status_by_lap s ;;
  let ax := fold_left (lap_band "yellow" (3 # 10)) (sc_laps track_status_df) ax in
  let ax := fold_left (lap_band "orange" (3 # 10)) (vsc_laps track_status_df) ax in
  ret ax.



(* ------------------------------------------------------------------ *)
(** ** Race-trace tables *)

Record GapRow := mkGap {
  g_LapNumber      : Z;
  g_CumulativeTime : Z;
  g_ReferenceTime  : Z;
  Gap              : Q
}.

(** [laps[laps['Driver'] == driver]] *)
Definition driver_rows (driver : string) (laps : list Row) : list Row :=
  filter (fun r => String.eqb (Driver r) driver) laps.

(** [.set_index('LapNumber')['CumulativeTime']]: a series keyed by lap
    number. *)
Definition set_index_LapNumber (laps : list Row) : list (Z * Z) :=
  map (fun r => (LapNumber r, CumulativeTime r)) laps.

(** The group mean of a duration column.  pandas takes it in floating point
    and converts back to whole nanoseconds; the quotient below stands for
    that value. *)
Definition mean (col : list Z) : Z :=
  Z.quot (fold_left Z.add col 0) (Z.of_nat (List.length col)).

Definition groupby_LapNumber_mean (laps : list Row) : list (Z * Z) :=
  map (fun n => (n, mean (map CumulativeTime (group_of n laps))))
      (group_keys (map LapNumber laps)).

(** The branch on [relative_to]: the reference series with the title and the
    axis label, or nothing when the named driver has no lap. *)
Definition reference (relative_to : string) (laps : list Row)
  : option (list (Z * Z) * string * string) :=
  if String.eqb relative_to "average" then
    Some (groupby_LapNumber_mean laps,
          "Race Progression Relative to Average",
          "Time Delta to Average (s)")
  else if String.eqb relative_to "leader" then
    Some (set_index_LapNumber (leader_laps laps),
          "Race Gaps to Leader",
          "Gap to Leader (s)")
  else
    match driver_rows relative_to laps with
    | [] => None
    | driver_laps =>
        Some (set_index_LapNumber driver_laps,
              String.append "Race Gaps Relative to " relative_to,
              String.append "Gap to " (String.append relative_to " (s)"))
    end.

(** [pd.merge(driver_laps[...], reference_times, on='LapNumber', how='inner')]
    followed by the [Gap] column. *)
Definition gaps_df (driver_laps : list Row) (reference_times : list (Z * Z))
  : list GapRow :=
  flat_map
    (fun l =>
       map (fun p => mkGap (LapNumber l) (CumulativeTime l) (snd p)
                           (total_seconds (CumulativeTime l - snd p)))
           (filter (fun p => fst p =? LapNumber l) reference_times))
    driver_laps.

(** [drivers_to_plot if drivers_to_plot else laps['Driver'].unique()] *)
Definition driver_abbreviations (drivers_to_plot : option (list string))
           (laps : list Row) : list string :=
  match drivers_to_plot with
  | Some (d :: ds) => d :: ds
  | _ => unique (map Driver laps)
  end.

(* ------------------------------------------------------------------ *)
(** ** Tyre stints *)

Definition StintKey : Type := (string * Z * string)%type.

(** The group key of a lap, when its stint and its compound are recorded. *)
Definition key_of (r : Lap.t) : option StintKey :=
  match Lap.Stint r, Lap.Compound r with
  | Some stint, Some compound => Some (Lap.Driver r, stint, compound)
  | _, _ => None
  end.

Definition key_eq_dec (a b : StintKey) : {a = b} + {a <> b}.
Proof. repeat decide equality. Defined.

Definition key_eqb (a b : StintKey) : bool :=
  if key_eq_dec a b then true else false.

(** The order in which [groupby] lists its keys: by driver, then stint,
    then compound. *)
Definition key_leb (a b : StintKey) : bool :=
  let '(d1, s1, c1) := a in
  let '(d2, s2, c2) := b in
  match String_as_OT.compare d1 d2 with
  | Lt => true
  | Gt => false
  | Eq => match s1 ?= s2 with
          | Lt => true
          | Gt => false
          | Eq => match String_as_OT.compare c1 c2 with
                  | Gt => false
                  | _ => true
                  end
          end
  end.

Record StintRow := mkStint {
  st_Driver   : string;
  st_Stint    : Z;
  st_Compound : string;
  st_min      : Z;
  st_max      : Z
}.

Definition has_key (k : StintKey) (r : Lap.t) : bool :=
  match key_of r with
  | Some k' => key_eqb k' k
  | None => false
  end.

Definition stint_group (k : StintKey) (rows : list Lap.t) : list Lap.t :=
  filter (has_key k) rows.

(** The keys that [groupby] sees: a lap whose stint or compound is missing
    belongs to no group (the default [dropna=True]). *)
Definition present_keys (rows : list Lap.t) : list StintKey :=
  flat_map (fun r => match key_of r with
                     | Some k => [k]
                     | None => []
                     end) rows.

(** [.agg(['min', 'max'])] of the lap numbers of one group. *)
Definition agg_min_max (k : StintKey) (col : list Z) : list StintRow :=
  match col with
  | [] => []
  | n :: ns =>
      [mkStint (fst (fst k)) (snd (fst k)) (snd k)
               (fold_left Z.min ns n) (fold_left Z.max ns n)]
  end.

(** [laps[[...]].groupby(['Driver','Stint','Compound'])['LapNumber']
      .agg(['min','max']).reset_index()] *)
Definition stints_of (rows : list Lap.t) : list StintRow :=
  flat_map (fun k => agg_min_max k (map Lap.LapNumber (stint_group k rows)))
           (sort key_leb (nodup key_eq_dec (present_keys rows))).

(** [stints[stints['Driver'] == driver]] *)
Definition driver_stints (driver : string) (stints : list StintRow)
  : list StintRow :=
  filter (fun st => String.eqb (st_Driver st) driver) stints.

(** A lap number lies in the span of a stint. *)
Definition in_span (n : Z) (st : StintRow) : Prop :=
  st_min st <= n <= st_max st.

(* ------------------------------------------------------------------ *)
(** ** Lap-time filters *)

(** [laps[laps['Driver'] == driver]] on the session table. *)
Definition laps_of_driver (driver : string) (rows : list Lap.t) : list Lap.t :=
  filter (fun r => String.eqb (Lap.Driver r) driver) rows.

Definition isnull (cell : option Z) : bool :=
  match cell with
  | None => true
  | Some _ => false
  end.

(** [driver_laps[driver_laps['LapNumber'] > 1]] *)
Definition exclude_first_lap (driver_laps : list Lap.t) : list Lap.t :=
  filter (fun r => 1 <? Lap.LapNumber r) driver_laps.

(** [driver_laps[~driver_laps['TrackStatus'].isin(['4', '6', '7'])]] *)
Definition exclude_safety_car_laps (driver_laps : list Lap.t) : list Lap.t :=
  filter (fun r => negb (isin (Lap.TrackStatus r) ["4"; "6"; "7"]))
         driver_laps.

(** [driver_laps.loc[PitInTime.isnull() & PitOutTime.isnull()]] *)
Definition exclude_pit_laps (driver_laps : list Lap.t) : list Lap.t :=
  filter (fun r => isnull (Lap.PitInTime r) && isnull (Lap.PitOutTime r))
         driver_laps.

(** The three [if] statements of the loop body, in the order of the code. *)
Definition retained_laps
           (ignore_pit_laps ignore_safety_car_laps ignore_first_lap : bool)
           (driver_laps : list Lap.t) : list Lap.t :=
  let driver_laps :=
    if ignore_first_lap then exclude_first_lap driver_laps
    else driver_laps in
  let driver_laps :=
    if ignore_safety_car_laps then exclude_safety_car_laps driver_laps
    else driver_laps in
  let driver_laps :=
    if ignore_pit_laps then exclude_pit_laps driver_laps
    else driver_laps in
  driver_laps.

(* ------------------------------------------------------------------ *)
(** ** Renderers *)

Section Renderers.

(** Supplied by the data library: the line style of a driver and the
    compound colour table. *)
Variable get_driver_style : string -> Session -> Style.
Variable COMPOUND_COLORS : list (string * string).

(** Also supplied by the data library: [Laps.pick_drivers], which selects
    the laps of the driver that an identifier designates (it matches the
    upper-cased abbreviation, or the driver number for a string of
    digits). *)
Variable pick_drivers : string -> list Lap.t -> list Lap.t.

(** The body of the loop over the drivers to plot. *)
Definition plot_driver (s : Session) (laps : list Row)
           (reference_times : list (Z * Z)) (ax : Axes) (driver : string)
  : Axes :=
  match driver_rows driver laps with
  | [] => ax
  | driver_laps =>
      let g := gaps_df driver_laps reference_times in
      plot (map g_LapNumber g) (map Gap g) driver
           (get_driver_style driver s) ax
  end.

(** Returns [None] for the bare [return], [Some ax] for [return fig, ax].
    The loop that turns object columns of booleans into [bool] leaves the
    columns of this model as they are. *)
Definition plot_race_trace (s : Session) (relative_to : string)
           (drivers_to_plot : option (list string)) : M (option Axes) :=
  load s ;;
  laps <- copy_with_cumulative s ;;
  match reference relative_to laps with
  | None =>
      print (String.append "Driver "
               (String.append relative_to " not found.")) ;;
      ret None
  | Some (reference_times, title, ylabel) =>
      let ax := set_labels title "Lap Number" ylabel subplots in
      ax <- plot_track_status_highlights ax s ;;
      let ax := fold_left (plot_driver s laps reference_times)
                          (driver_abbreviations drivers_to_plot laps) ax in
      let ax := set_legend (map line_label (lines ax)) ax in
      let ax := set_grid true ax in
      ret (Some (invert_yaxis ax))
  end.


(** [COMPOUND_COLORS.get(compound, '#FFFFFF')] *)
Fixpoint compound_color (table : list (string * string)) (compound : string)
  : string :=
  match table with
  | [] => "#FFFFFF"
  | (k, c) :: table' =>
      if String.eqb k compound then c else compound_color table' compound
  end.

(** The body of the inner loop: one bar and its centred caption. *)
Definition draw_stint (driver : string) (ax : Axes) (stint : StintRow)
  : Axes :=
  let start := st_min stint in
  let end_ := st_max stint in
  let compound := st_Compound stint in
  let ax := barh driver (end_ - start + 1) start
                 (compound_color COMPOUND_COLORS compound) ax in
  text (inject_Z start + inject_Z (end_ - start + 1) / (2 # 1))%Q
       driver compound ax.

Definition default_drivers (s : Session)
           (drivers_to_plot : option (list string)) : list string :=
  match drivers_to_plot with
  | None => drivers s
  | Some l => l
  end.

Definition plot_tyre_strategy (s : Session)
           (drivers_to_plot : option (list string)) : M Axes :=
  load s ;;
  f <- read (laps s) ;;
  let drivers_to_plot := default_drivers s drivers_to_plot in
  let stints :=
    filter (fun st => isin (st_Driver st) drivers_to_plot)
           (stints_of (frame_rows f)) in
  let ax :=
    fold_left (fun ax driver =>
                 fold_left (draw_stint driver) (driver_stints driver stints)
                           ax)
              drivers_to_plot subplots in
  let ax := set_labels (String.append (event s) " - Tyre Strategy")
                       "Lap Number" "Driver" ax in
  let ax := set_grid false ax in
  let ax := invert_yaxis ax in
  ret (set_legend (map fst COMPOUND_COLORS) ax).

Definition plot_lap_times (s : Session)
           (drivers_to_plot : option (list string))
           (ignore_pit_laps ignore_safety_car_laps ignore_first_lap : bool)
  : M Axes :=
  load s ;;
  f <- read (laps s) ;;
  let drivers_to_plot := default_drivers s drivers_to_plot in
  let ax :=
    fold_left
      (fun ax driver =>
         let driver_laps :=
           retained_laps ignore_pit_laps ignore_safety_car_laps
                         ignore_first_lap
                         (pick_drivers driver (frame_rows f)) in
         plot (map Lap.LapNumber driver_laps)
              (map (fun r => total_seconds (Lap.LapTime r)) driver_laps)
              driver (get_driver_style driver s) ax)
      drivers_to_plot subplots in
  let ax := set_labels (String.append (event s) " - Lap Times")
                       "Lap Number" "Lap Time (s)" ax in
  let ax := set_legend (map line_label (lines ax)) ax in
  ret (set_grid true ax).

End Renderers.

(* ------------------------------------------------------------------ *)
(** ** Notions used to state the properties *)

(** Labels grow along the rows of a frame built from the session table, and
    along every selection of its rows. *)
Definition labels_increasing (laps : list Row) : Prop :=
  StronglySorted lt (map label laps).

(** The row that [idxmin] designates in the group of lap number [n]. *)
Definition leader_of (n : Z) (laps : list Row) : list Row :=
  match group_of n laps with
  | [] => []
  | r :: g => [fold_left keep_min g r]
  end.

(** The running sum of a driver's lap durations up to and including the row
    at position [i] of the session table. *)
Definition running_sum (rows : list Lap.t) (i : nat) (driver : string) : Z :=
  fold_right Z.add 0
    (map Lap.LapTime
       (filter (fun r => String.eqb (Lap.Driver r) driver)
               (firstn (S i) rows))).

(** A weather table in ascending order of time. *)
Definition by_time_sorted (ws : list Weather.t) : Prop :=
  StronglySorted (fun a b => Weather.Time a <= Weather.Time b) ws.

(* ------------------------------------------------------------------ *)
(** ** Sample sessions *)

Definition lap_of (d : string) (n t : Z) : Lap.t :=
  Lap.mk d n t 0 (Some 1) (Some "SOFT") None None "1".

(** The session of the specification's example: drivers A and B, three laps
    each, A's rows first. *)
Definition example_session : list Lap.t :=
  [ lap_of "A" 1 90; lap_of "A" 2 91; lap_of "A" 3 89;
    lap_of "B" 1 92; lap_of "B" 2 88; lap_of "B" 3 90 ].

Definition timed_lap (d : string) (n t time : Z) : Lap.t :=
  Lap.mk d n t time (Some 1) (Some "SOFT") None None "1".

(** The same two drivers with the time at which each lap was set, and a
    weather table sampled every sixty units of time. *)
Definition timed_session : list Lap.t :=
  [ timed_lap "A" 1 90 90; timed_lap "A" 2 91 181; timed_lap "A" 3 89 270;
    timed_lap "B" 1 92 92; timed_lap "B" 2 88 180; timed_lap "B" 3 90 270 ].

Definition sample_at (time : Z) (air : Q) : Weather.t :=
  Weather.mk time (mkReadings air (40 # 1) (1013 # 1) 0 (35 # 1) (180 # 1) (2 # 1)).

Definition example_weather : list Weather.t :=
  [ sample_at 120 (22 # 1); sample_at 0 (20 # 1); sample_at 60 (21 # 1);
    sample_at 240 (24 # 1); sample_at 180 (23 # 1); sample_at 300 (25 # 1) ].

Definition example_world : World :=
  mkWorld [mkFrame timed_session None] [].

Definition example_loaded : Session :=
  mkSession 0 example_weather ["A"; "B"] "2023 Monza".

(** The band that [lap_band] draws for a lap number. *)
Definition band (color : string) (alpha : Q) (n : Z) : Span :=
  mkSpan (inject_Z n - (1 # 2))%Q (inject_Z n + (1 # 2))%Q color alpha.

(** A surface with more bands drawn on it and nothing else changed. *)
Definition add_spans (ax : Axes) (sps : list Span) : Axes :=
  mkAxes (title ax) (xlabel ax) (ylabel ax) (spans ax ++ sps)
         (lines ax) (bars ax) (texts ax) (legend ax) (grid ax) (inverted ax).


(** A session with a Safety Car on lap 2 and a Virtual Safety Car on laps 3
    and 4, as seen by the single driver. *)
Definition status_lap (d : string) (n t : Z) (status : string) : Lap.t :=
  Lap.mk d n t 0 (Some 1) (Some "SOFT") None None status.

Definition incident_session : list Lap.t :=
  [ status_lap "A" 1 90 "1"; status_lap "A" 2 120 "4";
    status_lap "A" 3 110 "6"; status_lap "A" 4 100 "7";
    status_lap "A" 5 90 "1" ].

Definition incident_world : World :=
  mkWorld [mkFrame incident_session None] [].

Definition incident_loaded : Session :=
  mkSession 0 [] ["A"] "2023 Monza".

(** A driver has at least one row in the working table. *)
Definition has_laps (driver : string) (laps : list Row) : bool :=
  match driver_rows driver laps with
  | [] => false
  | _ :: _ => true
  end.

(** The line that the loop of [plot_race_trace] draws for a driver. *)
Definition trace_line (get_driver_style : string -> Session -> Style)
           (s : Session) (laps : list Row) (reference_times : list (Z * Z))
           (driver : string) : Line :=
  let g := gaps_df (driver_rows driver laps) reference_times in
  mkLine (map g_LapNumber g) (map Gap g) driver (get_driver_style driver s).

(** A surface with more lines drawn on it and nothing else changed. *)
Definition add_lines (ax : Axes) (ls : list Line) : Axes :=
  mkAxes (title ax) (xlabel ax) (ylabel ax) (spans ax) (lines ax ++ ls)
         (bars ax) (texts ax) (legend ax) (grid ax) (inverted ax).

(** The message printed for a reference driver that is not in the session. *)
Definition not_found_message (relative_to : string) : string :=
  String.append "Driver " (String.append relative_to " not found.").

(** The derived object that a call leaves behind in the store. *)
Definition working_copy (f : LapsFrame) : LapsFrame :=
  mkFrame (frame_rows f)
          (Some (cumsum_by_driver no_total (frame_rows f))).

Definition plain_style (driver : string) (s : Session) : Style :=
  ("white", "solid").

(** The lap numbers of the laps a driver has in the session. *)
Definition driver_lap_numbers (d : string) (rows : list Lap.t) : list Z :=
  map Lap.LapNumber (laps_of_driver d rows).

Definition stint_key (st : StintRow) : StintKey :=
  (st_Driver st, st_Stint st, st_Compound st).

(** The union of a driver's spans is the set of the driver's lap numbers. *)
Definition spans_cover_exactly (rows : list Lap.t) (d : string) : Prop :=
  forall n,
    (exists st, In st (driver_stints d (stints_of rows)) /\ in_span n st)
    <-> In n (driver_lap_numbers d rows).

(** No lap number lies in two different spans of a driver. *)
Definition spans_disjoint (rows : list Lap.t) (d : string) : Prop :=
  forall st1 st2 n,
    In st1 (driver_stints d (stints_of rows)) ->
    In st2 (driver_stints d (stints_of rows)) ->
    st1 <> st2 ->
    ~ (in_span n st1 /\ in_span n st2).

(** The laps of each (driver, stint, compound) group of the driver are
    consecutive: between the lap numbers of two laps of a group, every lap
    number is that of a lap of the same group. *)
Definition consecutive_groups (rows : list Lap.t) (d : string) : Prop :=
  forall r1 r2 k n,
    In r1 rows -> In r2 rows -> Lap.Driver r1 = d ->
    key_of r1 = Some k -> key_of r2 = Some k ->
    Lap.LapNumber r1 <= n <= Lap.LapNumber r2 ->
    exists r, In r rows /\ key_of r = Some k /\ Lap.LapNumber r = n.

(** Every lap of the driver has its stint and its compound recorded. *)
Definition keys_recorded (rows : list Lap.t) (d : string) : Prop :=
  forall r, In r rows -> Lap.Driver r = d -> key_of r <> None.

(** The lexical order of the group keys: by driver, then stint, then
    compound. *)
Definition key_lt (a b : StintKey) : Prop :=
  let '(d1, s1, c1) := a in
  let '(d2, s2, c2) := b in
  String_as_OT.lt d1 d2 \/
  (d1 = d2 /\ (s1 < s2 \/ (s1 = s2 /\ String_as_OT.lt c1 c2))).


Definition stint_lap (d : string) (n stint : Z) (compound : string) : Lap.t :=
  Lap.mk d n 90 0 (Some stint) (Some compound) None None "1".

(** A driver whose first stint is on softs from lap 1 to lap 5, with lap 2
    recorded on mediums and no record of lap 4. *)
Definition patchy_session : list Lap.t :=
  [ stint_lap "A" 1 1 "SOFT"; stint_lap "A" 2 1 "MEDIUM";
    stint_lap "A" 3 1 "SOFT"; stint_lap "A" 5 1 "SOFT" ].

(** Two regular stints: softs on laps 1 to 3, hards on laps 4 and 5. *)
Definition regular_session : list Lap.t :=
  [ stint_lap "A" 1 1 "SOFT"; stint_lap "A" 2 1 "SOFT";
    stint_lap "A" 3 1 "SOFT"; stint_lap "A" 4 2 "HARD";
    stint_lap "A" 5 2 "HARD" ].

Definition key_le (a b : StintKey) : Prop := a = b \/ key_lt a b.

Definition bare_lap (d : string) (n : Z) : Lap.t :=
  Lap.mk d n 90 0 None None None None "1".

(** Two laps on softs and a third lap with no stint and no compound
    recorded. *)
Definition unlabelled_session : list Lap.t :=
  [ stint_lap "A" 1 1 "SOFT"; stint_lap "A" 2 1 "SOFT"; bare_lap "A" 3 ].

(** The bar and the caption that [draw_stint] adds for a stint. *)
Definition stint_bar (COMPOUND_COLORS : list (string * string))
           (driver : string) (st : StintRow) : Bar :=
  mkBar driver (st_max st - st_min st + 1) (st_min st)
        (compound_color COMPOUND_COLORS (st_Compound st)).

Definition stint_text (driver : string) (st : StintRow) : Text :=
  mkText (inject_Z (st_min st)
          + inject_Z (st_max st - st_min st + 1) / (2 # 1))%Q
         driver (st_Compound st).

(** A surface with more bars and captions on it and nothing else changed. *)
Definition add_bars (ax : Axes) (bs : list Bar) (ts : list Text) : Axes :=
  mkAxes (title ax) (xlabel ax) (ylabel ax) (spans ax) (lines ax)
         (bars ax ++ bs) (texts ax ++ ts) (legend ax) (grid ax) (inverted ax).

(** The test that the enabled filters of [plot_lap_times] make on a lap. *)
Definition kept
           (ignore_pit_laps ignore_safety_car_laps ignore_first_lap : bool)
           (r : Lap.t) : bool :=
  (if ignore_first_lap then 1 <? Lap.LapNumber r else true)
  && (if ignore_safety_car_laps
      then negb (isin (Lap.TrackStatus r) ["4"; "6"; "7"]) else true)
  && (if ignore_pit_laps
      then isnull (Lap.PitInTime r) && isnull (Lap.PitOutTime r) else true).

(** The line that the loop of [plot_lap_times] draws for a driver. *)
Definition lap_time_line (get_driver_style : string -> Session -> Style)
           (pick_drivers : string -> list Lap.t -> list Lap.t)
           (s : Session) (rows : list Lap.t)
           (ignore_pit_laps ignore_safety_car_laps ignore_first_lap : bool)
           (driver : string) : Line :=
  let driver_laps :=
    retained_laps ignore_pit_laps ignore_safety_car_laps ignore_first_lap
                  (pick_drivers driver rows) in
  mkLine (map Lap.LapNumber driver_laps)
         (map (fun r => total_seconds (Lap.LapTime r)) driver_laps)
         driver (get_driver_style driver s).

Definition example_colors : list (string * string) :=
  [ ("SOFT", "#da291c"); ("MEDIUM", "#ffd12e"); ("HARD", "#f0f0ec") ].

Definition regular_world : World :=
  mkWorld [mkFrame regular_session None] [].

Definition regular_loaded : Session :=
  mkSession 0 [] ["A"] "2023 Monza".

(** One selection function for the parameter [pick_drivers]: the rule of the
    data library for an abbreviation, which is compared in upper case. *)
Definition upper_ascii (c : Ascii.ascii) : Ascii.ascii :=
  let n := Ascii.nat_of_ascii c in
  if ((97 <=? n)%nat && (n <=? 122)%nat)%bool
  then Ascii.ascii_of_nat (n - 32)
  else c.

Fixpoint upper (s : string) : string :=
  match s with
  | EmptyString => EmptyString
  | String c s' => String (upper_ascii c) (upper s')
  end.

Definition pick_by_abbreviation (identifier : string) (rows : list Lap.t)
  : list Lap.t :=
  laps_of_driver (upper identifier) rows.




(* ------------------------------------------------------------------ *)
(** ** The view builders on tables with missing lap times

    The definitions above read a lap table in which every lap time is
    present and add durations as integers.  [Raw] follows the lap time column
    as pandas holds it: a cell is a count of nanoseconds in 64 bits or is
    missing (NaT), the least 64-bit value being the mark of a missing cell.
    The running total skips a missing lap time and leaves the cell of that
    row missing; [idxmin] skips missing cells and yields no label for a lap
    number without any; [loc] raises on a missing label.  A call that raises
    returns [None]. *)
Module Raw.

(** The columns of [session.laps] that the view builders read. *)
Record Lap := mkLap {
  Driver      : string;
  LapNumber   : Z;
  LapTime     : option Z;
  Time        : Z;
  TrackStatus : string
}.

Record Row := mkRow {
  label          : nat;
  lap            : Lap;
  CumulativeTime : option Z
}.

Definition lap_number (r : Row) : Z := LapNumber (lap r).

Definition int64_min : Z := - 2 ^ 63.
Definition int64_max : Z := 2 ^ 63 - 1.

(** Addition of 64-bit integers keeps the low 64 bits of the sum. *)
Definition wrap64 (z : Z) : Z := (z + 2 ^ 63) mod 2 ^ 64 - 2 ^ 63.

(** A 64-bit value read as a duration. *)
Definition of_int64 (t : Z) : option Z :=
  if t =? int64_min then None else Some t.

(** [groupby('Driver')['LapTime'].cumsum()] *)
Fixpoint cumsum_by_driver (acc : string -> Z) (rows : list Lap)
  : list (option Z) :=
  match rows with
  | [] => []
  | r :: rs =>
      match LapTime r with
      | None => None :: cumsum_by_driver acc rs
      | Some val =>
          let t := wrap64 (acc (Driver r) + val) in
          of_int64 t
            :: cumsum_by_driver
                 (fun d => if String.eqb d (Driver r) then t else acc d) rs
      end
  end.

Fixpoint set_column (i : nat) (rows : list Lap) (col : list (option Z))
  : list Row :=
  match rows, col with
  | r :: rs, c :: cs => mkRow i r c :: set_column (S i) rs cs
  | _, _ => []
  end.

Definition with_cumulative (rows : list Lap) : list Row :=
  set_column 0 rows (cumsum_by_driver (fun _ => 0) rows).

(** One step of [idxmin]: a missing cell is passed over, a smaller time
    replaces the best one so far. *)
Definition keep_min (best : option (Row * Z)) (x : Row) : option (Row * Z) :=
  match CumulativeTime x with
  | None => best
  | Some c =>
      match best with
      | None => Some (x, c)
      | Some (b, cb) => if c <? cb then Some (x, c) else best
      end
  end.

Definition idxmin (g : list Row) : option nat :=
  option_map (fun b => label (fst b)) (fold_left keep_min g None).

Definition group_of (n : Z) (laps : list Row) : list Row :=
  filter (fun r => lap_number r =? n) laps.

(** [laps.groupby('LapNumber')['CumulativeTime'].idxmin()]: a label for each
    lap number, or none where no lap of that number has a cumulative time. *)
Definition groupby_LapNumber_idxmin (laps : list Row) : list (option nat) :=
  map (fun n => idxmin (group_of n laps)) (group_keys (map lap_number laps)).

(** [laps.loc[labels]]: raises [KeyError] when a label is missing. *)
Fixpoint loc (laps : list Row) (labels : list (option nat))
  : option (list Row) :=
  match labels with
  | [] => Some []
  | None :: _ => None
  | Some l :: rest =>
      match filter (fun r => Nat.eqb (label r) l) laps, loc laps rest with
      | x :: xs, Some found => Some ((x :: xs) ++ found)
      | _, _ => None
      end
  end.

Definition leader_laps (laps : list Row) : option (list Row) :=
  loc laps (groupby_LapNumber_idxmin laps).

Definition track_status (laps : list Row) : option (list (Z * string)) :=
  option_map (map (fun r => (lap_number r, TrackStatus (lap r))))
             (leader_laps laps).

(** The result of [get_track_status_by_lap] for a session with this lap
    table. *)
Definition get_track_status_by_lap (session_laps : list Lap)
  : option (list (Z * string)) :=
  track_status (with_cumulative session_laps).

Section SortValues.

(** [sort_values(by='Time')] with the default algorithm: some ordering of
    the rows by time, the order of rows with equal times being left to the
    algorithm. *)
Variable sort_laps : list Row -> list Row.
Variable sort_weather : list Weather.t -> list Weather.t.

(** The result of [get_weather_data_by_lap] for a session with these
    tables. *)
Definition get_weather_data_by_lap (session_laps : list Lap)
           (weather_data : list Weather.t) : option (list WeatherLap) :=
  match leader_laps (with_cumulative session_laps) with
  | None => None
  | Some leaders =>
      Some (map (fun l =>
                   mkWeatherLap (lap_number l)
                     (option_map Weather.readings
                        (asof_nearest (Time (lap l))
                                      (sort_weather weather_data))))
                (sort_laps leaders))
  end.

End SortValues.

(** The lap duration that enters the running total. *)
Definition duration (r : Lap) : Z :=
  match LapTime r with
  | Some val => val
  | None => 0
  end.

(** The sum of the lap times present among a driver's rows up to and
    including position [i]. *)
Definition running_sum (rows : list Lap) (i : nat) (driver : string) : Z :=
  fold_right Z.add 0
    (map duration
       (filter (fun r => String.eqb (Driver r) driver) (firstn (S i) rows))).

(** A duration that 64 bits can hold. *)
Definition in_int64 (z : Z) : Prop := int64_min < z <= int64_max.

(** No running total leaves the range of 64-bit durations. *)
Definition no_overflow (rows : list Lap) : Prop :=
  forall i d, in_int64 (running_sum rows i d).

(** Every lap number has a lap with a lap time. *)
Definition every_lap_timed (rows : list Lap) : Prop :=
  forall r, In r rows ->
            exists r', In r' rows /\ LapNumber r' = LapNumber r /\
                       LapTime r' <> None.

Definition labels_increasing (laps : list Row) : Prop :=
  StronglySorted lt (map label laps).

(** The lap of a complete table as a row of the raw table. *)
Definition of_complete (r : Lap.t) : Lap :=
  mkLap (Lap.Driver r) (Lap.LapNumber r) (Some (Lap.LapTime r))
        (Lap.Time r) (Lap.TrackStatus r).

Definition by_Time (a b : Row) : bool := Time (lap a) <=? Time (lap b).

End Raw.

Definition raw_lap (d : string) (n : Z) (t : option Z) : Raw.Lap :=
  Raw.mkLap d n t 0 "1".

(** The session of the specification's example as a raw table. *)
Definition raw_example_session : list Raw.Lap :=
  map Raw.of_complete example_session.

(** Driver A has no time for lap 2, and nobody else drove lap 2. *)
Definition untimed_session : list Raw.Lap :=
  [ raw_lap "A" 1 (Some 90); raw_lap "B" 1 (Some 92); raw_lap "A" 2 None ].

(** Driver A has no time for lap 1; B has. *)
Definition partly_timed_session : list Raw.Lap :=
  [ raw_lap "A" 1 None; raw_lap "A" 2 (Some 91);
    raw_lap "B" 1 (Some 92); raw_lap "B" 2 (Some 88) ].

(** Two laps of A that add up to more than 64 bits can hold, and two short
    laps of B. *)
Definition overflowing_session : list Raw.Lap :=
  [ raw_lap "A" 1 (Some (2 ^ 62)); raw_lap "A" 2 (Some (2 ^ 62 + 1));
    raw_lap "B" 1 (Some 10); raw_lap "B" 2 (Some 10) ].

(** The row that [Raw.idxmin] designates in the group of lap number [n],
    when the group has a cumulative time. *)
Definition raw_leader_of (n : Z) (laps : list Raw.Row) : option Raw.Row :=
  option_map fst (fold_left Raw.keep_min (Raw.group_of n laps) None).

Definition leader_list (n : Z) (laps : list Raw.Row) : list Raw.Row :=
  match raw_leader_of n laps with
  | Some m => [m]
  | None => []
  end.

(** The row [l] holds the least of the cumulative times present on the rows
    of its lap number, and is the first row of the table to hold it. *)
Definition is_leader (laps : list Raw.Row) (l : Raw.Row) : Prop :=
  In l laps /\
  exists c, Raw.CumulativeTime l = Some c /\
            forall x c', In x laps -> Raw.lap_number x = Raw.lap_number l ->
                         Raw.CumulativeTime x = Some c' ->
                         c <= c' /\
                         (c' = c -> (Raw.label l <= Raw.label x)%nat).

(** Every lap number of the table has a row with a cumulative time. *)
Definition every_lap_has_total (laps : list Raw.Row) : Prop :=
  forall x, In x laps ->
            exists y, In y laps /\ Raw.lap_number y = Raw.lap_number x /\
                      Raw.CumulativeTime y <> None.

(** Rows in the order of the times at which the laps were set. *)
Definition time_ordered (ls : list Raw.Row) : Prop :=
  StronglySorted (fun a b => Raw.Time (Raw.lap a) <= Raw.Time (Raw.lap b)) ls.

(** The timed session as a raw table. *)
Definition raw_timed_session : list Raw.Lap :=
  map Raw.of_complete timed_session.

(** A row of the working copy of a complete table as a row of the raw
    working copy. *)
Definition of_complete_row (r : Row) : Raw.Row :=
  Raw.mkRow (label r) (Raw.of_complete (lap r)) (Some (CumulativeTime r)).

(* ================================================================== *)
(** * Properties *)

(* ------------------------------------------------------------------ *)
(** ** Sorting and group keys *)

Section SortingFacts.
Variable A : Type.
Variable leb : A -> A -> bool.

Lemma insert_sorted_perm (x : A) (l : list A) :
  Permutation (x :: l) (insert_sorted leb x l).
Proof.
  induction l as [|y l IH]; simpl.
  - apply Permutation_refl.
  - destruct (leb x y).
    + apply Permutation_refl.
    + eapply perm_trans; [apply perm_swap|].
      now apply perm_skip.
Qed.

Lemma sort_perm (l : list A) : Permutation l (sort leb l).
Proof.
  induction l as [|x l IH]; simpl.
  - constructor.
  - eapply perm_trans; [|apply insert_sorted_perm].
    now apply perm_skip.
Qed.

Lemma sort_In (l : list A) (x : A) : In x (sort leb l) <-> In x l.
Proof.
  split; intro H.
  - eapply Permutation_in; [apply Permutation_sym, sort_perm|exact H].
  - eapply Permutation_in; [apply sort_perm|exact H].
Qed.

Lemma sort_NoDup (l : list A) : NoDup l -> NoDup (sort leb l).
Proof. intro H. eapply Permutation_NoDup; [apply sort_perm|exact H]. Qed.

End SortingFacts.

(** Sorting by an integer key yields a list ordered on that key. *)
Section SortedByKey.
Variable A : Type.
Variable key : A -> Z.

Let kleb (a b : A) : bool := key a <=? key b.
Let kle (a b : A) : Prop := key a <= key b.

Lemma insert_sorted_by_key (x : A) (l : list A) :
  StronglySorted kle l -> StronglySorted kle (insert_sorted kleb x l).
Proof.
  induction 1 as [|y l Hs IH Hy]; simpl.
  - repeat constructor.
  - unfold kleb at 1. destruct (Z.leb_spec (key x) (key y)) as [Hle|Hgt].
    + constructor; [now constructor|].
      constructor; [exact Hle|].
      rewrite Forall_forall in *. intros z Hz. specialize (Hy z Hz).
      unfold kle in *. lia.
    + constructor; [exact IH|].
      rewrite Forall_forall in *. intros z Hz.
      apply (Permutation_in _ (Permutation_sym (insert_sorted_perm kleb x l))) in Hz.
      destruct Hz as [<-|Hz]; [unfold kle; lia|auto].
Qed.

Lemma sort_by_key_sorted (l : list A) : StronglySorted kle (sort kleb l).
Proof.
  induction l as [|x l IH]; simpl.
  - constructor.
  - now apply insert_sorted_by_key.
Qed.
End SortedByKey.

Lemma group_keys_In (col : list Z) (n : Z) :
  In n (group_keys col) <-> In n col.
Proof. unfold group_keys. rewrite sort_In. apply nodup_In. Qed.

Lemma group_keys_NoDup (col : list Z) : NoDup (group_keys col).
Proof. unfold group_keys. apply sort_NoDup, NoDup_nodup. Qed.

Lemma group_keys_sorted (col : list Z) :
  StronglySorted Z.le (group_keys col).
Proof.
  unfold group_keys.
  exact (sort_by_key_sorted (fun z : Z => z) (nodup Z.eq_dec col)).
Qed.

(* ------------------------------------------------------------------ *)
(** ** Index labels and the cumulative column *)

Lemma cumsum_by_driver_length (rows : list Lap.t) :
  forall acc, List.length (cumsum_by_driver acc rows) = List.length rows.
Proof.
  induction rows as [|r rs IH]; intro acc; simpl; [reflexivity|].
  now rewrite IH.
Qed.

Lemma set_column_label_ge (rows : list Lap.t) :
  forall i col r, In r (set_column i rows col) -> (i <= label r)%nat.
Proof.
  induction rows as [|x rs IH]; intros i col r H; simpl in H; [contradiction|].
  destruct col as [|c cs]; [contradiction|].
  destruct H as [<-|H]; simpl; [lia|].
  apply IH in H. lia.
Qed.

Lemma set_column_labels_increasing (rows : list Lap.t) :
  forall i col, labels_increasing (set_column i rows col).
Proof.
  unfold labels_increasing.
  induction rows as [|x rs IH]; intros i col; simpl; [constructor|].
  destruct col as [|c cs]; simpl; [constructor|].
  constructor; [apply IH|].
  rewrite Forall_forall. intros l Hl. apply in_map_iff in Hl.
  destruct Hl as [r [<- Hr]]. apply set_column_label_ge in Hr. lia.
Qed.

Lemma set_column_lap (rows : list Lap.t) :
  forall i col, List.length col = List.length rows ->
                map lap (set_column i rows col) = rows.
Proof.
  induction rows as [|x rs IH]; intros i col Hlen; simpl; [reflexivity|].
  destruct col as [|c cs]; [discriminate|]. simpl.
  f_equal. apply IH. simpl in Hlen. lia.
Qed.

Lemma with_cumulative_lap (rows : list Lap.t) :
  map lap (with_cumulative rows) = rows.
Proof. apply set_column_lap, cumsum_by_driver_length. Qed.


Lemma with_cumulative_labels (rows : list Lap.t) :
  labels_increasing (with_cumulative rows).
Proof. apply set_column_labels_increasing. Qed.

Lemma labels_increasing_filter (f : Row -> bool) (laps : list Row) :
  labels_increasing laps -> labels_increasing (filter f laps).
Proof.
  unfold labels_increasing.
  induction laps as [|r laps IH]; simpl; intro H; [constructor|].
  inversion H as [|? ? Hs Hall]; subst.
  destruct (f r); simpl; [|now apply IH].
  constructor; [now apply IH|].
  rewrite Forall_forall in *. intros l Hl. apply Hall.
  apply in_map_iff in Hl. destruct Hl as [x [<- Hx]].
  apply filter_In in Hx. apply in_map, Hx.
Qed.

Lemma labels_increasing_inj (laps : list Row) (a b : Row) :
  labels_increasing laps -> In a laps -> In b laps ->
  label a = label b -> a = b.
Proof.
  unfold labels_increasing.
  induction laps as [|r laps IH]; simpl; intros H Ha Hb Hl; [contradiction|].
  inversion H as [|? ? Hs Hall]; subst. rewrite Forall_forall in Hall.
  destruct Ha as [<-|Ha], Hb as [<-|Hb]; auto.
  - specialize (Hall _ (in_map label _ _ Hb)). lia.
  - specialize (Hall _ (in_map label _ _ Ha)). lia.
Qed.

Lemma filter_label_none (laps : list Row) (l : nat) :
  (forall x, In x laps -> label x <> l) ->
  filter (fun r => Nat.eqb (label r) l) laps = [].
Proof.
  induction laps as [|x laps IH]; simpl; intro H; [reflexivity|].
  destruct (Nat.eqb_spec (label x) l) as [E|_].
  - exfalso. apply (H x); auto.
  - apply IH. intros y Hy. apply H. auto.
Qed.

(** With distinct labels, [loc] on one label of the frame finds one row. *)
Lemma loc_single (laps : list Row) (m : Row) :
  labels_increasing laps -> In m laps ->
  filter (fun r => Nat.eqb (label r) (label m)) laps = [m].
Proof.
  unfold labels_increasing.
  induction laps as [|r laps IH]; simpl; intros H Hm; [contradiction|].
  inversion H as [|? ? Hs Hall]; subst. rewrite Forall_forall in Hall.
  destruct Hm as [->|Hm].
  - rewrite Nat.eqb_refl. f_equal. apply filter_label_none.
    intros x Hx. specialize (Hall _ (in_map label _ _ Hx)). lia.
  - specialize (Hall _ (in_map label _ _ Hm)).
    destruct (Nat.eqb_spec (label r) (label m)); [lia|].
    now apply IH.
Qed.

(* ------------------------------------------------------------------ *)
(** ** The leader of a lap number *)

Lemma fold_keep_min_spec (g : list Row) :
  forall r,
    labels_increasing (r :: g) ->
    let m := fold_left keep_min g r in
    In m (r :: g) /\
    forall x, In x (r :: g) ->
              CumulativeTime m <= CumulativeTime x /\
              (CumulativeTime x = CumulativeTime m -> (label m <= label x)%nat).
Proof.
  unfold labels_increasing.
  induction g as [|y g IH]; intros r Hs; simpl.
  - split; [auto|]. intros x [<-|[]]. split; [lia|auto].
  - inversion Hs as [|? ? Hs' Hall]; subst.
    inversion Hs' as [|? ? Hs'' Hall']; subst.
    rewrite Forall_forall in Hall.
    assert (Hry : (label r < label y)%nat) by (apply Hall; simpl; auto).
    assert (K : keep_min r y
                = if CumulativeTime y <? CumulativeTime r then y else r)
      by reflexivity.
    rewrite K. clear K.
    destruct (Z.ltb_spec (CumulativeTime y) (CumulativeTime r)) as [Hlt|Hge].
    + destruct (IH y Hs') as [Hin Hmin]. split; [simpl in *; tauto|].
      intros x [<-|Hx]; [|now apply Hmin].
      destruct (Hmin y (or_introl eq_refl)) as [Hle _]. split; lia.
    + assert (Hs2 : StronglySorted lt (map label (r :: g))).
      { simpl. constructor; [exact Hs''|].
        rewrite Forall_forall. intros l Hl. apply Hall. simpl. auto. }
      destruct (IH r Hs2) as [Hin Hmin]. split; [simpl in *; tauto|].
      intros x [<-|[<-|Hx]].
      * apply Hmin. simpl. auto.
      * destruct (Hmin r (or_introl eq_refl)) as [Hle Htie].
        split; [lia|]. intro E.
        assert (Hm : (label (fold_left keep_min g r) <= label r)%nat)
          by (apply Htie; lia).
        lia.
      * apply Hmin. simpl. auto.
Qed.

Lemma leader_of_spec (n : Z) (laps : list Row) (m : Row) :
  labels_increasing laps ->
  In m (leader_of n laps) ->
  In m laps /\ LapNumber m = n /\
  forall x, In x laps -> LapNumber x = n ->
            CumulativeTime m <= CumulativeTime x /\
            (CumulativeTime x = CumulativeTime m -> (label m <= label x)%nat).
Proof.
  intros Hs Hm. unfold leader_of in Hm.
  assert (Hg : labels_increasing (group_of n laps))
    by now apply labels_increasing_filter.
  destruct (group_of n laps) as [|r g] eqn:E; [contradiction|].
  destruct Hm as [<-|[]].
  destruct (fold_keep_min_spec Hg) as [Hin Hmin].
  rewrite <- E in Hin. unfold group_of in Hin. apply filter_In in Hin.
  destruct Hin as [Hin Hn]. apply Z.eqb_eq in Hn.
  repeat split; auto.
  - apply Hmin. rewrite <- E. apply filter_In. split; [auto|now apply Z.eqb_eq].
  - apply Hmin. rewrite <- E. apply filter_In. split; [auto|now apply Z.eqb_eq].
Qed.

Lemma leader_of_exists (n : Z) (laps : list Row) :
  In n (map LapNumber laps) -> exists m, leader_of n laps = [m].
Proof.
  intro H. apply in_map_iff in H. destruct H as [r [Hn Hr]].
  unfold leader_of.
  destruct (group_of n laps) as [|x g] eqn:E; [|eauto].
  exfalso. assert (Hin : In r (group_of n laps)).
  { apply filter_In. split; [auto|now apply Z.eqb_eq]. }
  rewrite E in Hin. contradiction.
Qed.

(** [loc] on the labels that [idxmin] returns brings back the designated
    rows, one for each group key. *)
Lemma leader_laps_by_key (laps : list Row) :
  labels_increasing laps ->
  leader_laps laps
  = flat_map (fun n => leader_of n laps) (group_keys (map LapNumber laps)).
Proof.
  intro Hs. unfold leader_laps, loc, groupby_LapNumber_idxmin.
  induction (group_keys (map LapNumber laps)) as [|n ks IH]; simpl;
    [reflexivity|].
  rewrite flat_map_app, IH. f_equal.
  unfold idxmin, leader_of.
  assert (Hg : labels_increasing (group_of n laps))
    by now apply labels_increasing_filter.
  destruct (group_of n laps) as [|r g] eqn:E; simpl; [reflexivity|].
  rewrite app_nil_r. apply loc_single; [exact Hs|].
  destruct (fold_keep_min_spec Hg) as [Hin _].
  rewrite <- E in Hin. apply filter_In in Hin. tauto.
Qed.



Lemma running_sum_cons (x : Lap.t) (rs : list Lap.t) (k : nat) (d : string) :
  running_sum (x :: rs) (S k) d
  = (if String.eqb (Lap.Driver x) d then Lap.LapTime x else 0)
    + running_sum rs k d.
Proof.
  unfold running_sum. cbn [firstn filter].
  destruct (String.eqb (Lap.Driver x) d); cbn [map fold_right]; lia.
Qed.

Lemma set_column_cumsum (rows : list Lap.t) :
  forall i acc r,
    In r (set_column i rows (cumsum_by_driver acc rows)) ->
    (i <= label r)%nat /\
    nth_error rows (label r - i) = Some (lap r) /\
    CumulativeTime r
    = acc (Driver r) + running_sum rows (label r - i) (Driver r).
Proof.
  induction rows as [|x rs IH]; intros i acc r H; simpl in H; [contradiction|].
  destruct H as [<-|H].
  - cbn [label lap CumulativeTime]. rewrite Nat.sub_diag.
    unfold Driver, running_sum. cbn [lap firstn filter nth_error].
    rewrite String.eqb_refl. cbn [map fold_right]. repeat split; lia.
  - apply IH in H. destruct H as [Hi [Hnth Hc]].
    replace (label r - i)%nat with (S (label r - S i)) by lia.
    rewrite running_sum_cons. cbn [nth_error].
    repeat split; [lia|exact Hnth|]. rewrite Hc. unfold Driver.
    rewrite (String.eqb_sym (Lap.Driver x)).
    destruct (String.eqb (Lap.Driver (lap r)) (Lap.Driver x)) eqn:E; [|lia].
    apply String.eqb_eq in E. rewrite E. lia.
Qed.

Lemma with_cumulative_running_sum (rows : list Lap.t) (r : Row) :
  In r (with_cumulative rows) ->
  nth_error rows (label r) = Some (lap r) /\
  CumulativeTime r = running_sum rows (label r) (Driver r).
Proof.
  intro H. apply set_column_cumsum in H. destruct H as [_ [Hnth Hc]].
  rewrite Nat.sub_0_r in *. split; [exact Hnth|]. rewrite Hc. reflexivity.
Qed.

(* ------------------------------------------------------------------ *)
(** ** Effects on the object store *)

Lemma replace_nth_last (h : list LapsFrame) (f g : LapsFrame) :
  replace_nth (List.length h) g (h ++ [f]) = h ++ [g].
Proof.
  induction h as [|x h IH]; simpl; [reflexivity|]. now rewrite IH.
Qed.

Lemma nth_error_last (h : list LapsFrame) (f : LapsFrame) :
  nth_error (h ++ [f]) (List.length h) = Some f.
Proof.
  rewrite nth_error_app2 by lia. now rewrite Nat.sub_diag.
Qed.

(** The working copy is a new object placed after the existing ones; the
    assignment lands on it. *)
Lemma copy_with_cumulative_run (s : Session) (w : World) (f : LapsFrame) :
  nth_error (heap w) (laps s) = Some f ->
  copy_with_cumulative s w
  = Some (with_cumulative (frame_rows f),
          mkWorld (heap w ++ [mkFrame (frame_rows f)
                                (Some (cumsum_by_driver no_total
                                                        (frame_rows f)))])
                  (stdout w)).
Proof.
  intro H. unfold copy_with_cumulative, copy, setitem_CumulativeTime, bind, read.
  rewrite H. cbn [heap stdout].
  repeat (progress (rewrite ?nth_error_last, ?replace_nth_last;
                    cbn [heap stdout frame_rows])).
  reflexivity.
Qed.

Lemma get_track_status_by_lap_run (s : Session) (w : World) (f : LapsFrame) :
  nth_error (heap w) (laps s) = Some f ->
  get_track_status_by_lap s w
  = Some (track_status (with_cumulative (frame_rows f)),
          mkWorld (heap w ++ [mkFrame (frame_rows f)
                                (Some (cumsum_by_driver no_total
                                                        (frame_rows f)))])
                  (stdout w)).
Proof.
  intro H. unfold get_track_status_by_lap, load, bind, ret.
  now rewrite (copy_with_cumulative_run s w H).
Qed.


Lemma nth_error_extended (h : list LapsFrame) (g f : LapsFrame) (ref : nat) :
  nth_error h ref = Some f -> nth_error (h ++ [g]) ref = Some f.
Proof.
  intro H. rewrite nth_error_app1; [exact H|].
  apply nth_error_Some. congruence.
Qed.



(** Assigning the column to the session's own object, without the copy,
    would be visible in the store. *)
Example assignment_without_copy_is_visible :
  let f := mkFrame example_session None in
  let w := mkWorld [f] [] in
  match setitem_CumulativeTime 0 (cumsum_by_driver no_total example_session) w
  with
  | Some (_, w') => nth_error (heap w') 0 <> Some f
  | None => False
  end.
Proof. cbv zeta. cbn. discriminate. Qed.

(* ------------------------------------------------------------------ *)
(** ** The nearest-in-time join *)

Lemma scan_while_ext (p q : Weather.t -> bool) (ws : list Weather.t) :
  (forall w, p w = q w) ->
  forall passed, scan_while p ws passed = scan_while q ws passed.
Proof.
  intro E. induction ws as [|w ws IH]; intro passed; simpl; [reflexivity|].
  rewrite E. destruct (q w); [apply IH|reflexivity].
Qed.

(** On a table ordered by the key [k], the scan stops on the last sample
    whose key is at most [c]. *)
Lemma scan_while_sorted (k : Weather.t -> Z) (c : Z) (ws : list Weather.t) :
  StronglySorted (fun a b => k a <= k b) ws ->
  forall passed,
    (forall b, passed = Some b -> k b <= c /\ Forall (fun w => k b <= k w) ws) ->
    match scan_while (fun w => k w <=? c) ws passed with
    | Some b => k b <= c /\ (In b ws \/ passed = Some b) /\
                forall w, In w ws -> k w <= c -> k w <= k b
    | None => passed = None /\ forall w, In w ws -> c < k w
    end.
Proof.
  induction 1 as [|x ws Hs IH Hx]; intros passed Hp; simpl.
  - destruct passed as [b|].
    + destruct (Hp b eq_refl) as [Hb _]. repeat split; auto. intros w [].
    + split; [reflexivity|]. intros w [].
  - rewrite Forall_forall in Hx.
    destruct (Z.leb_spec (k x) c) as [Hle|Hgt].
    + specialize (IH (Some x)).
      destruct (scan_while (fun w => k w <=? c) ws (Some x)) as [b|].
      * destruct IH as [Hb [Hin Hmax]].
        { intros b0 E. injection E as <-. split; [exact Hle|].
          rewrite Forall_forall. exact Hx. }
        split; [exact Hb|]. split.
        { left. destruct Hin as [Hin|E]; [now right|].
          injection E as <-. now left. }
        intros w [<-|Hw] Hwc; [|now apply Hmax].
        destruct Hin as [Hin|E]; [now apply Hx|]. injection E as <-. lia.
      * destruct IH as [E _]; [|discriminate].
        intros b0 E. injection E as <-. split; [exact Hle|].
        rewrite Forall_forall. exact Hx.
    + assert (Hall : forall w, In w (x :: ws) -> c < k w).
      { intros w [<-|Hw]; [exact Hgt|]. specialize (Hx w Hw). lia. }
      destruct passed as [b|].
      * destruct (Hp b eq_refl) as [Hb _].
        split; [exact Hb|]. split; [now right|].
        intros w Hw Hwc. specialize (Hall w Hw). lia.
      * split; [reflexivity|exact Hall].
Qed.

Lemma StronglySorted_snoc (A : Type) (R : A -> A -> Prop) (l : list A) (x : A) :
  StronglySorted R l -> Forall (fun y => R y x) l -> StronglySorted R (l ++ [x]).
Proof.
  induction 1 as [|y l Hs IH Hy]; intro Hall; simpl.
  - repeat constructor.
  - inversion Hall as [|? ? Hyx Hall']; subst.
    constructor; [now apply IH|].
    apply Forall_app. split; [exact Hy|]. now constructor.
Qed.

Lemma StronglySorted_rev_flip (A : Type) (R : A -> A -> Prop) (l : list A) :
  StronglySorted R l -> StronglySorted (fun a b => R b a) (rev l).
Proof.
  induction 1 as [|x l Hs IH Hx]; simpl; [constructor|].
  apply StronglySorted_snoc; [exact IH|].
  rewrite Forall_forall in *. intros y Hy. apply Hx. now apply in_rev.
Qed.

Lemma asof_backward_spec (t : Z) (ws : list Weather.t) :
  by_time_sorted ws ->
  match asof_backward t ws with
  | Some b => In b ws /\ Weather.Time b <= t /\
              forall w, In w ws -> Weather.Time w <= t ->
                        Weather.Time w <= Weather.Time b
  | None => forall w, In w ws -> t < Weather.Time w
  end.
Proof.
  intro Hs. unfold asof_backward.
  pose proof (@scan_while_sorted Weather.Time t ws Hs None) as H.
  destruct (scan_while _ ws None) as [b|].
  - destruct H as [Hb [[Hin|E] Hmax]]; [discriminate| |discriminate].
    auto.
  - apply H. discriminate.
Qed.

Lemma asof_forward_spec (t : Z) (ws : list Weather.t) :
  by_time_sorted ws ->
  match asof_forward t ws with
  | Some f => In f ws /\ t <= Weather.Time f /\
              forall w, In w ws -> t <= Weather.Time w ->
                        Weather.Time f <= Weather.Time w
  | None => forall w, In w ws -> Weather.Time w < t
  end.
Proof.
  intro Hs. unfold asof_forward.
  rewrite (@scan_while_ext _ (fun w => - Weather.Time w <=? - t)).
  2:{ intro w. destruct (Z.leb_spec t (Weather.Time w)),
                        (Z.leb_spec (- Weather.Time w) (- t)); auto; lia. }
  assert (Hr : StronglySorted
                 (fun a b => - Weather.Time a <= - Weather.Time b) (rev ws)).
  { apply StronglySorted_rev_flip in Hs.
    induction Hs as [|x l Hs' IH Hx]; constructor; auto.
    rewrite Forall_forall in *. intros y Hy. specialize (Hx y Hy). lia. }
  pose proof (@scan_while_sorted (fun w => - Weather.Time w) (- t) (rev ws)
                                 Hr None) as H.
  destruct (scan_while _ (rev ws) None) as [f|].
  - destruct H as [Hf [[Hin|E] Hmax]]; [discriminate| |discriminate].
    split; [now apply in_rev|]. split; [lia|].
    intros w Hw Hwt. apply in_rev in Hw. specialize (Hmax w Hw). lia.
  - destruct H as [_ H]; [discriminate|].
    intros w Hw. apply in_rev in Hw. specialize (H w Hw). lia.
Qed.

(** On a non-empty sorted table the join finds a sample, and no sample is
    nearer to the key than the one it finds. *)
Lemma asof_nearest_spec (t : Z) (ws : list Weather.t) :
  by_time_sorted ws -> ws <> [] ->
  exists r, asof_nearest t ws = Some r /\ In r ws /\
            forall w, In w ws ->
              Z.abs (Weather.Time r - t) <= Z.abs (Weather.Time w - t).
Proof.
  intros Hs Hne. unfold asof_nearest.
  pose proof (@asof_backward_spec t ws Hs) as Hb.
  pose proof (@asof_forward_spec t ws Hs) as Hf.
  destruct (asof_backward t ws) as [b|], (asof_forward t ws) as [f|].
  - destruct Hb as [Hbin [Hbt Hbmax]], Hf as [Hfin [Hft Hfmin]].
    destruct (Z.leb_spec (t - Weather.Time b) (Weather.Time f - t)).
    + exists b. repeat split; auto. intros w Hw.
      destruct (Z.le_gt_cases (Weather.Time w) t) as [Hle|Hgt].
      * specialize (Hbmax w Hw Hle). lia.
      * assert (Weather.Time f <= Weather.Time w) by (apply Hfmin; auto; lia).
        lia.
    + exists f. repeat split; auto. intros w Hw.
      destruct (Z.le_gt_cases (Weather.Time w) t) as [Hle|Hgt].
      * specialize (Hbmax w Hw Hle). lia.
      * assert (Weather.Time f <= Weather.Time w) by (apply Hfmin; auto; lia).
        lia.
  - destruct Hb as [Hbin [Hbt Hbmax]].
    exists b. repeat split; auto. intros w Hw.
    specialize (Hf w Hw). specialize (Hbmax w Hw). lia.
  - destruct Hf as [Hfin [Hft Hfmin]].
    exists f. repeat split; auto. intros w Hw.
    specialize (Hb w Hw). specialize (Hfmin w Hw). lia.
  - destruct ws as [|w ws]; [congruence|].
    specialize (Hb w (or_introl eq_refl)).
    specialize (Hf w (or_introl eq_refl)). lia.
Qed.

Lemma Forall2_map_same (A B : Type) (g : A -> B) (P : A -> B -> Prop)
      (l : list A) :
  (forall a, In a l -> P a (g a)) -> Forall2 P l (map g l).
Proof.
  induction l as [|a l IH]; intro H; simpl; constructor.
  - apply H. simpl. auto.
  - apply IH. intros b Hb. apply H. simpl. auto.
Qed.




(** On the timed session the leader of lap 1 sets its lap at time 90, midway
    between the samples at 60 and 120: the earlier one is attached. *)
Example example_weather_by_lap :
  option_map (fun r => map (fun o => (wl_LapNumber o,
                                      option_map AirTemp (wl_readings o)))
                           (fst r))
             (get_weather_data_by_lap example_loaded example_world)
  = Some [(1, Some (21 # 1)%Q); (2, Some (23 # 1)%Q); (3, Some (24 # 1)%Q)].
Proof. reflexivity. Qed.

(* ------------------------------------------------------------------ *)
(** ** Gaps to the reference series *)






(* ------------------------------------------------------------------ *)
(** ** Track-status highlights *)

Lemma add_spans_nil (ax : Axes) : add_spans ax [] = ax.
Proof. destruct ax. unfold add_spans. simpl. now rewrite app_nil_r. Qed.

Lemma add_spans_app (ax : Axes) (a b : list Span) :
  add_spans (add_spans ax a) b = add_spans ax (a ++ b).
Proof. unfold add_spans. simpl. now rewrite app_assoc. Qed.

Lemma fold_lap_band (color : string) (alpha : Q) (ns : list Z) :
  forall ax, fold_left (lap_band color alpha) ns ax
             = add_spans ax (map (band color alpha) ns).
Proof.
  induction ns as [|n ns IH]; intro ax; simpl.
  - now rewrite add_spans_nil.
  - rewrite IH. unfold add_spans, lap_band, axvspan, band. simpl.
    now rewrite <- app_assoc.
Qed.

Lemma plot_track_status_highlights_run
      (ax : Axes) (s : Session) (w : World) (f : LapsFrame) :
  nth_error (heap w) (laps s) = Some f ->
  let df := track_status (with_cumulative (frame_rows f)) in
  plot_track_status_highlights ax s w
  = Some (add_spans ax (map (band "yellow" (3 # 10)) (sc_laps df)
                        ++ map (band "orange" (3 # 10)) (vsc_laps df)),
          mkWorld (heap w ++ [mkFrame (frame_rows f)
                                (Some (cumsum_by_driver no_total
                                                        (frame_rows f)))])
                  (stdout w)).
Proof.
  intros H df. unfold plot_track_status_highlights, bind.
  rewrite (@get_track_status_by_lap_run s w f H). unfold ret.
  now rewrite !fold_lap_band, add_spans_app.
Qed.

Lemma sc_laps_In (df : list (Z * string)) (n : Z) :
  In n (sc_laps df) <-> In (n, "4") df.
Proof.
  unfold sc_laps. rewrite in_map_iff. split.
  - intros [[m st] [<- H]]. apply filter_In in H. destruct H as [H E].
    simpl in *. rewrite orb_false_r in E. apply String.eqb_eq in E. now subst.
  - intro H. exists (n, "4"). split; [reflexivity|].
    apply filter_In. split; [exact H|reflexivity].
Qed.

Lemma vsc_laps_In (df : list (Z * string)) (n : Z) :
  In n (vsc_laps df) <-> In (n, "6") df \/ In (n, "7") df.
Proof.
  unfold vsc_laps. rewrite in_map_iff. split.
  - intros [[m st] [<- H]]. apply filter_In in H. destruct H as [H E].
    simpl in *. rewrite orb_false_r in E. apply orb_true_iff in E.
    destruct E as [E|E]; apply String.eqb_eq in E; subst; auto.
  - intros [H|H]; [exists (n, "6")|exists (n, "7")];
      (split; [reflexivity|]); apply filter_In; (split; [exact H|reflexivity]).
Qed.




(** The bands drawn on the incident session: lap 2 in yellow, laps 3 and 4 in
    orange. *)
Example incident_session_bands :
  option_map (fun r => spans (fst r))
             (plot_track_status_highlights subplots incident_loaded
                                           incident_world)
  = Some [ band "yellow" (3 # 10) 2;
           band "orange" (3 # 10) 3; band "orange" (3 # 10) 4 ].
Proof. reflexivity. Qed.


(* ------------------------------------------------------------------ *)
(** ** Incident classification *)

Lemma isin_In (cell : string) (values : list string) :
  isin cell values = true <-> In cell values.
Proof.
  unfold isin. rewrite existsb_exists. split.
  - intros [v [Hv E]]. apply String.eqb_eq in E. now subst.
  - intro H. exists cell. split; [exact H|apply String.eqb_refl].
Qed.

Lemma isin_false (cell : string) (values : list string) :
  ~ In cell values -> isin cell values = false.
Proof.
  intro H. destruct (isin cell values) eqn:E; [|reflexivity].
  apply isin_In in E. contradiction.
Qed.

Lemma composite_not_a_code (status : string) :
  (1 < String.length status)%nat -> ~ In status ["4"; "6"; "7"].
Proof.
  intros Hlen [E|[E|[E|[]]]]; subst; simpl in Hlen; lia.
Qed.

(** C9: both functions compare the whole track-status cell with '4', '6' and
    '7'.  A lap is classified by [plot_track_status_highlights] exactly when
    its cell equals one of the codes, and dropped by the Safety Car filter of
    [plot_lap_times] exactly then; a cell of more than one character, such as
    '45' or '67', is classified by neither. *)
Theorem incident_codes_compared_exactly
        (df : list (Z * string)) (driver_laps : list Lap.t) :
  (forall n, In n (sc_laps df) <-> In (n, "4") df) /\
  (forall n, In n (vsc_laps df) <-> In (n, "6") df \/ In (n, "7") df) /\
  (forall r, In r (exclude_safety_car_laps driver_laps) <->
             In r driver_laps /\
             Lap.TrackStatus r <> "4" /\ Lap.TrackStatus r <> "6" /\
             Lap.TrackStatus r <> "7") /\
  (forall n status, (1 < String.length status)%nat ->
                    sc_laps [(n, status)] = [] /\
                    vsc_laps [(n, status)] = []) /\
  (forall r, (1 < String.length (Lap.TrackStatus r))%nat ->
             exclude_safety_car_laps [r] = [r]) /\
  (forall n, sc_laps [(n, "45")] = [] /\ vsc_laps [(n, "45")] = [] /\
             sc_laps [(n, "67")] = [] /\ vsc_laps [(n, "67")] = []) /\
  (forall d n t, exclude_safety_car_laps [status_lap d n t "45"]
                 = [status_lap d n t "45"] /\
                 exclude_safety_car_laps [status_lap d n t "67"]
                 = [status_lap d n t "67"]).
Proof.
  split; [intro n; apply sc_laps_In|].
  split; [intro n; apply vsc_laps_In|].
  split.
  { intro r. unfold exclude_safety_car_laps. rewrite filter_In.
    rewrite negb_true_iff. split.
    - intros [Hr E]. split; [exact Hr|].
      repeat split; intro Hs; rewrite Hs in E; discriminate E.
    - intros [Hr [H4 [H6 H7]]]. split; [exact Hr|].
      apply isin_false. intros [E|[E|[E|[]]]]; congruence. }
  split.
  { intros n status Hlen.
    pose proof (@composite_not_a_code status Hlen) as Hno.
    unfold sc_laps, vsc_laps. cbn [filter snd].
    rewrite !isin_false; [split; reflexivity| |];
      intro H; apply Hno; simpl in *; tauto. }
  split.
  { intros r Hlen. unfold exclude_safety_car_laps. cbn [filter].
    now rewrite isin_false by now apply composite_not_a_code. }
  split; [intro n; repeat split; reflexivity|].
  intros d n t. split; reflexivity.
Qed.

(* ------------------------------------------------------------------ *)
(** ** Lap-time filters *)

Lemma filter_comm (A : Type) (p q : A -> bool) (l : list A) :
  filter p (filter q l) = filter q (filter p l).
Proof.
  induction l as [|x l IH]; simpl; [reflexivity|].
  destruct (p x) eqn:Ep, (q x) eqn:Eq; simpl; rewrite ?Ep, ?Eq, IH; reflexivity.
Qed.

(** C6: any two of the three exclusion filters of [plot_lap_times] can be
    applied in either order to a driver's laps with the same laps retained,
    in the same order.  With all three enabled the loop body retains the laps
    after the first that are neither incident laps nor pit laps. *)
Theorem lap_time_filters_commute (driver_laps : list Lap.t) :
  exclude_first_lap (exclude_pit_laps driver_laps)
  = exclude_pit_laps (exclude_first_lap driver_laps) /\
  exclude_first_lap (exclude_safety_car_laps driver_laps)
  = exclude_safety_car_laps (exclude_first_lap driver_laps) /\
  exclude_safety_car_laps (exclude_pit_laps driver_laps)
  = exclude_pit_laps (exclude_safety_car_laps driver_laps) /\
  retained_laps true true true driver_laps
  = exclude_first_lap (exclude_safety_car_laps (exclude_pit_laps driver_laps)) /\
  (forall r, In r (retained_laps true true true driver_laps) <->
             In r driver_laps /\ 1 < Lap.LapNumber r /\
             ~ In (Lap.TrackStatus r) ["4"; "6"; "7"] /\
             Lap.PitInTime r = None /\ Lap.PitOutTime r = None).
Proof.
  unfold retained_laps, exclude_first_lap, exclude_safety_car_laps,
    exclude_pit_laps.
  split; [apply filter_comm|]. split; [apply filter_comm|].
  split; [apply filter_comm|]. split.
  - rewrite (filter_comm (fun r => isnull (Lap.PitInTime r)
                                   && isnull (Lap.PitOutTime r))).
    rewrite (filter_comm (fun r => isnull (Lap.PitInTime r)
                                   && isnull (Lap.PitOutTime r))).
    apply filter_comm.
  - intro r. rewrite !filter_In, Z.ltb_lt, negb_true_iff, andb_true_iff.
    assert (Hnull : forall c : option Z, isnull c = true <-> c = None)
      by (intros [z|]; simpl; split; congruence).
    rewrite !Hnull. split.
    + intros [[[Hr H1] Hs] [Hi Ho]]. repeat split; auto.
      intro Hin. apply isin_In in Hin. congruence.
    + intros [Hr [H1 [Hs [Hi Ho]]]]. repeat split; auto.
      now apply isin_false.
Qed.

(* ------------------------------------------------------------------ *)
(** ** The race-trace renderer *)

Section RaceTrace.
Variable get_driver_style : string -> Session -> Style.

Lemma add_lines_nil (ax : Axes) : add_lines ax [] = ax.
Proof. destruct ax. unfold add_lines. simpl. now rewrite app_nil_r. Qed.

Lemma plot_driver_line (s : Session) (laps : list Row) (ref : list (Z * Z))
      (ax : Axes) (d : string) :
  plot_driver get_driver_style s laps ref ax d
  = if has_laps d laps
    then add_lines ax [trace_line get_driver_style s laps ref d]
    else ax.
Proof.
  unfold plot_driver, has_laps, trace_line.
  destruct (driver_rows d laps) eqn:E; reflexivity.
Qed.

Lemma fold_plot_driver (s : Session) (laps : list Row) (ref : list (Z * Z))
      (ds : list string) :
  forall ax,
    fold_left (plot_driver get_driver_style s laps ref) ds ax
    = add_lines ax (map (trace_line get_driver_style s laps ref)
                        (filter (fun d => has_laps d laps) ds)).
Proof.
  induction ds as [|d ds IH]; intro ax; simpl.
  - now rewrite add_lines_nil.
  - rewrite IH, plot_driver_line.
    destruct (has_laps d laps); [|reflexivity].
    unfold add_lines. simpl. now rewrite <- app_assoc.
Qed.

Lemma driver_rows_In (d : string) (rows : list Lap.t) (r : Row) :
  In r (driver_rows d (with_cumulative rows)) ->
  In (lap r) rows /\ Lap.Driver (lap r) = d.
Proof.
  intro H. apply filter_In in H. destruct H as [H E].
  apply String.eqb_eq in E. split; [|exact E].
  rewrite <- (with_cumulative_lap rows). now apply in_map.
Qed.

Lemma has_laps_false (d : string) (rows : list Lap.t) :
  (forall r, In r rows -> Lap.Driver r <> d) ->
  has_laps d (with_cumulative rows) = false.
Proof.
  intro H. unfold has_laps.
  destruct (driver_rows d (with_cumulative rows)) as [|x l] eqn:E;
    [reflexivity|].
  exfalso. destruct (@driver_rows_In d rows x) as [Hin Hd].
  - rewrite E. simpl. auto.
  - exact (H _ Hin Hd).
Qed.



Lemma reference_not_found (rel : string) (rows : list Lap.t) :
  rel <> "average" -> rel <> "leader" ->
  (forall r, In r rows -> Lap.Driver r <> rel) ->
  reference rel (with_cumulative rows) = None.
Proof.
  intros Ha Hl H. unfold reference.
  destruct (String.eqb_spec rel "average") as [|_]; [contradiction|].
  destruct (String.eqb_spec rel "leader") as [|_]; [contradiction|].
  apply has_laps_false in H. unfold has_laps in H.
  destruct (driver_rows rel (with_cumulative rows)); [reflexivity|discriminate].
Qed.

(** What a call of [plot_race_trace] does on a loaded session, by the
    outcome of the branch on [relative_to]. *)
Lemma plot_race_trace_run (s : Session) (rel : string)
      (drivers_to_plot : option (list string)) (w : World) (f : LapsFrame) :
  nth_error (heap w) (laps s) = Some f ->
  let laps := with_cumulative (frame_rows f) in
  plot_race_trace get_driver_style s rel drivers_to_plot w
  = match reference rel laps with
    | None =>
        Some (None, mkWorld (heap w ++ [working_copy f])
                            (stdout w ++ [not_found_message rel]))
    | Some (ref, title, ylabel) =>
        let df := track_status laps in
        let ax := set_labels title "Lap Number" ylabel subplots in
        let ax := add_spans ax (map (band "yellow" (3 # 10)) (sc_laps df)
                                ++ map (band "orange" (3 # 10)) (vsc_laps df)) in
        let ax := add_lines ax
                    (map (trace_line get_driver_style s laps ref)
                         (filter (fun d => has_laps d laps)
                                 (driver_abbreviations drivers_to_plot laps))) in
        let ax := set_legend (map line_label (lines ax)) ax in
        Some (Some (invert_yaxis (set_grid true ax)),
              mkWorld ((heap w ++ [working_copy f]) ++ [working_copy f])
                      (stdout w))
    end.
Proof.
  intros H laps. unfold plot_race_trace, load, bind at 1 2, ret at 1.
  rewrite (@copy_with_cumulative_run s w f H). fold laps.
  destruct (reference rel laps) as [[[ref ttl] yl]|].
  - unfold bind.
    rewrite (@plot_track_status_highlights_run _ s _ f)
      by (cbn [heap]; now apply nth_error_extended).
    cbn [heap stdout]. fold laps. rewrite fold_plot_driver. reflexivity.
  - reflexivity.
Qed.

(** C5: with an explicit reference driver that has no lap in the session,
    [plot_race_trace] raises nothing: it prints the message that the driver
    was not found and returns without a figure.  The session's lap table is
    as before. *)
Theorem race_trace_reference_driver_not_found
        (s : Session) (rel : string) (drivers_to_plot : option (list string))
        (w : World) (f : LapsFrame) :
  nth_error (heap w) (laps s) = Some f ->
  rel <> "average" -> rel <> "leader" ->
  (forall r, In r (frame_rows f) -> Lap.Driver r <> rel) ->
  exists w',
    plot_race_trace get_driver_style s rel drivers_to_plot w
    = Some (None, w') /\
    stdout w' = stdout w ++ [not_found_message rel] /\
    nth_error (heap w') (laps s) = Some f.
Proof.
  intros H Ha Hl Hno.
  rewrite (@plot_race_trace_run s rel drivers_to_plot w f H).
  rewrite (@reference_not_found rel (frame_rows f) Ha Hl Hno).
  eexists. split; [reflexivity|]. cbn [heap stdout].
  split; [reflexivity|]. now apply nth_error_extended.
Qed.


End RaceTrace.

Lemma race_trace_reference_driver_not_found_witness :
  let s := example_loaded in
  let w := example_world in
  let f := mkFrame timed_session None in
  let rel := "VER" in
  nth_error (heap w) (laps s) = Some f /\
  rel <> "average" /\ rel <> "leader" /\
  (forall r, In r (frame_rows f) -> Lap.Driver r <> rel) /\
  exists w',
    plot_race_trace plain_style s rel None w = Some (None, w') /\
    stdout w' = stdout w ++ [not_found_message rel] /\
    nth_error (heap w') (laps s) = Some f.
Proof.
  intros s w f rel.
  assert (H1 : nth_error (heap w) (laps s) = Some f) by reflexivity.
  assert (H2 : rel <> "average") by discriminate.
  assert (H3 : rel <> "leader") by discriminate.
  assert (H4 : forall r, In r (frame_rows f) -> Lap.Driver r <> rel).
  { intros r Hr. simpl in Hr.
    repeat (destruct Hr as [<-|Hr]; [discriminate|]). contradiction. }
  repeat (split; [assumption|]).
  exact (@race_trace_reference_driver_not_found plain_style s rel None w f
                                                H1 H2 H3 H4).
Defined.

Example race_trace_not_found_output :
  option_map (fun r => (fst r, stdout (snd r)))
             (plot_race_trace plain_style example_loaded "VER" None
                              example_world)
  = Some (None, ["Driver VER not found."]).
Proof. reflexivity. Qed.


(** Gaps to the leader on the timed session, asked for an unknown driver and
    for B: one line, B's, and nothing printed. *)
Example race_trace_unknown_entry :
  option_map
    (fun r => (option_map (fun ax => map (fun l => (line_label l, xdata l))
                                         (lines ax))
                          (fst r),
               stdout (snd r)))
    (plot_race_trace plain_style example_loaded "leader"
                     (Some ["XXX"; "B"]) example_world)
  = Some (Some [("B", [1; 2; 3])], []).
Proof. reflexivity. Qed.

(* ------------------------------------------------------------------ *)
(** ** Own gaps on the drawn lines *)







(** Gaps to B on the timed session: B's own line is flat at zero, A's is
    not. *)
Example race_trace_gaps_to_B :
  option_map
    (fun r => option_map (fun ax => map (fun l => (line_label l, ydata l))
                                        (lines ax))
                         (fst r))
    (plot_race_trace plain_style example_loaded "B" None example_world)
  = Some (Some [ ("A", [(-2) # 1000000000; 1 # 1000000000; 0 # 1000000000]%Q);
                 ("B", [0 # 1000000000; 0 # 1000000000; 0 # 1000000000]%Q) ]).
Proof. reflexivity. Qed.


(* ------------------------------------------------------------------ *)
(** ** Tyre stints *)

Example patchy_session_stints :
  stints_of patchy_session
  = [ mkStint "A" 1 "MEDIUM" 2 2; mkStint "A" 1 "SOFT" 1 5 ].
Proof. reflexivity. Qed.

Example regular_session_stints :
  stints_of regular_session
  = [ mkStint "A" 1 "SOFT" 1 3; mkStint "A" 2 "HARD" 4 5 ].
Proof. reflexivity. Qed.

Example unlabelled_session_stints :
  stints_of unlabelled_session = [ mkStint "A" 1 "SOFT" 1 2 ].
Proof. reflexivity. Qed.

Lemma fold_min_spec (ns : list Z) :
  forall n, let m := fold_left Z.min ns n in
            In m (n :: ns) /\ forall x, In x (n :: ns) -> m <= x.
Proof.
  induction ns as [|y ns IH]; intro n; simpl.
  - split; [auto|]. intros x [<-|[]]. lia.
  - destruct (IH (Z.min n y)) as [Hin Hle]. split.
    + destruct Hin as [E|Hin]; [|auto].
      rewrite <- E. destruct (Z.min_spec n y) as [[_ ->]|[_ ->]]; auto.
    + intros x Hx.
      assert (Hm : fold_left Z.min ns (Z.min n y) <= Z.min n y)
        by (apply Hle; simpl; auto).
      destruct Hx as [<-|[<-|Hx]]; [lia|lia|].
      apply Hle. simpl. auto.
Qed.

Lemma fold_max_spec (ns : list Z) :
  forall n, let m := fold_left Z.max ns n in
            In m (n :: ns) /\ forall x, In x (n :: ns) -> x <= m.
Proof.
  induction ns as [|y ns IH]; intro n; simpl.
  - split; [auto|]. intros x [<-|[]]. lia.
  - destruct (IH (Z.max n y)) as [Hin Hle]. split.
    + destruct Hin as [E|Hin]; [|auto].
      rewrite <- E. destruct (Z.max_spec n y) as [[_ ->]|[_ ->]]; auto.
    + intros x Hx.
      assert (Hm : Z.max n y <= fold_left Z.max ns (Z.max n y))
        by (apply Hle; simpl; auto).
      destruct Hx as [<-|[<-|Hx]]; [lia|lia|].
      apply Hle. simpl. auto.
Qed.

Lemma key_eqb_eq (a b : StintKey) : key_eqb a b = true <-> a = b.
Proof.
  unfold key_eqb. destruct (key_eq_dec a b); split; congruence.
Qed.

Lemma key_of_Driver (r : Lap.t) (k : StintKey) :
  key_of r = Some k -> fst (fst k) = Lap.Driver r.
Proof.
  unfold key_of. destruct (Lap.Stint r), (Lap.Compound r); try discriminate.
  intro E. injection E as <-. reflexivity.
Qed.

Lemma stint_group_In (k : StintKey) (rows : list Lap.t) (r : Lap.t) :
  In r (stint_group k rows) <-> In r rows /\ key_of r = Some k.
Proof.
  unfold stint_group, has_key. rewrite filter_In.
  destruct (key_of r) as [k'|].
  - rewrite key_eqb_eq. split; intros [H E]; split; congruence.
  - split; intros [H E]; discriminate.
Qed.

Lemma present_keys_In (rows : list Lap.t) (k : StintKey) :
  In k (present_keys rows) <-> exists r, In r rows /\ key_of r = Some k.
Proof.
  unfold present_keys. rewrite in_flat_map. split.
  - intros [r [Hr Hk]]. exists r. split; [exact Hr|].
    destruct (key_of r) as [k'|]; [|contradiction].
    destruct Hk as [->|[]]. reflexivity.
  - intros [r [Hr E]]. exists r. split; [exact Hr|]. rewrite E. simpl. auto.
Qed.

(** The row that the aggregation produces for a group: its key is the group
    key and its span runs from the least to the greatest lap number. *)
Lemma agg_min_max_In (k : StintKey) (col : list Z) (st : StintRow) :
  In st (agg_min_max k col) ->
  stint_key st = k /\
  agg_min_max k col = [st] /\
  In (st_min st) col /\ In (st_max st) col /\
  forall n, In n col -> in_span n st.
Proof.
  unfold agg_min_max. destruct col as [|n ns]; [contradiction|].
  intros [<-|[]]. destruct k as [[d s] c].
  split; [reflexivity|]. split; [reflexivity|].
  cbn [st_min st_max].
  destruct (fold_min_spec ns n) as [Hmin_in Hmin].
  destruct (fold_max_spec ns n) as [Hmax_in Hmax].
  split; [exact Hmin_in|]. split; [exact Hmax_in|].
  intros x Hx. unfold in_span. cbn [st_min st_max].
  split; [now apply Hmin|now apply Hmax].
Qed.

Lemma stints_of_In (rows : list Lap.t) (st : StintRow) :
  In st (stints_of rows) <->
  exists k, In k (present_keys rows) /\
            In st (agg_min_max k (map Lap.LapNumber (stint_group k rows))).
Proof.
  unfold stints_of. rewrite in_flat_map. split.
  - intros [k [Hk Hst]]. exists k. split; [|exact Hst].
    apply sort_In in Hk. now apply nodup_In in Hk.
  - intros [k [Hk Hst]]. exists k. split; [|exact Hst].
    apply sort_In. now apply nodup_In.
Qed.

Lemma driver_stints_In (d : string) (rows : list Lap.t) (st : StintRow) :
  In st (driver_stints d (stints_of rows)) ->
  st_Driver st = d /\
  agg_min_max (stint_key st)
              (map Lap.LapNumber (stint_group (stint_key st) rows)) = [st].
Proof.
  intro H. apply filter_In in H. destruct H as [H E].
  apply String.eqb_eq in E. split; [exact E|].
  apply stints_of_In in H. destruct H as [k [_ Hst]].
  destruct (@agg_min_max_In k _ st Hst) as [Hk [Hagg _]].
  now rewrite Hk.
Qed.

(** The ends of a span are lap numbers of laps of its group. *)
Lemma span_ends (d : string) (rows : list Lap.t) (st : StintRow) :
  In st (driver_stints d (stints_of rows)) ->
  exists r1 r2,
    In r1 rows /\ In r2 rows /\
    key_of r1 = Some (stint_key st) /\ key_of r2 = Some (stint_key st) /\
    Lap.LapNumber r1 = st_min st /\ Lap.LapNumber r2 = st_max st.
Proof.
  intro H. destruct (@driver_stints_In d rows st H) as [_ Hagg].
  assert (Hst : In st (agg_min_max (stint_key st)
                  (map Lap.LapNumber (stint_group (stint_key st) rows))))
    by (rewrite Hagg; simpl; auto).
  destruct (@agg_min_max_In _ _ st Hst) as [_ [_ [Hmin [Hmax _]]]].
  apply in_map_iff in Hmin. destruct Hmin as [r1 [E1 H1]].
  apply in_map_iff in Hmax. destruct Hmax as [r2 [E2 H2]].
  apply stint_group_In in H1. apply stint_group_In in H2.
  exists r1, r2. tauto.
Qed.

(** Every lap whose stint and compound are recorded lies in the span of its
    own group. *)
Lemma lap_in_own_span (rows : list Lap.t) (r : Lap.t) (k : StintKey) :
  In r rows -> key_of r = Some k ->
  exists st, In st (driver_stints (Lap.Driver r) (stints_of rows)) /\
             stint_key st = k /\
             in_span (Lap.LapNumber r) st.
Proof.
  intros Hr Hk.
  assert (Hg : In r (stint_group k rows)) by (apply stint_group_In; auto).
  destruct (agg_min_max k (map Lap.LapNumber (stint_group k rows)))
    as [|st l] eqn:E.
  - exfalso. unfold agg_min_max in E.
    destruct (stint_group k rows); [contradiction|discriminate].
  - assert (Hst : In st (agg_min_max k
                   (map Lap.LapNumber (stint_group k rows))))
      by (rewrite E; simpl; auto).
    destruct (@agg_min_max_In _ _ st Hst) as [Hks [_ [_ [_ Hspan]]]].
    exists st. split; [|split; [exact Hks|]].
    + apply filter_In. split.
      * apply stints_of_In. exists k. split; [|exact Hst].
        apply present_keys_In. eauto.
      * apply String.eqb_eq.
        change (st_Driver st) with (fst (fst (stint_key st))).
        rewrite Hks. now apply key_of_Driver.
    + apply Hspan. now apply in_map.
Qed.

Lemma NoDup_map_injective (A B : Type) (g : A -> B) (l : list A) (a b : A) :
  NoDup (map g l) -> In a l -> In b l -> g a = g b -> a = b.
Proof.
  induction l as [|x l IH]; simpl; intros Hnd Ha Hb E; [contradiction|].
  inversion Hnd as [|? ? Hx Hnd']; subst.
  destruct Ha as [->|Ha], Hb as [->|Hb]; auto.
  - exfalso. apply Hx. rewrite E. now apply in_map.
  - exfalso. apply Hx. rewrite <- E. now apply in_map.
Qed.

Lemma laps_of_driver_In (d : string) (rows : list Lap.t) (r : Lap.t) :
  In r (laps_of_driver d rows) <-> In r rows /\ Lap.Driver r = d.
Proof.
  unfold laps_of_driver. rewrite filter_In, String.eqb_eq. reflexivity.
Qed.

(** A lap number in the span of a stint whose group is consecutive is the
    lap number of a lap of that group, which is a lap of the driver. *)
Lemma span_member_lap (rows : list Lap.t) (d : string) (st : StintRow) (n : Z) :
  consecutive_groups rows d ->
  In st (driver_stints d (stints_of rows)) -> in_span n st ->
  exists r, In r (laps_of_driver d rows) /\ Lap.LapNumber r = n /\
            key_of r = Some (stint_key st).
Proof.
  intros Hc Hst Hn.
  destruct (@driver_stints_In d rows st Hst) as [Hd _].
  destruct (@span_ends d rows st Hst)
    as [r1 [r2 [H1 [H2 [Hk1 [Hk2 [Hmin Hmax]]]]]]].
  assert (Hd1 : Lap.Driver r1 = d).
  { rewrite <- (key_of_Driver r1 Hk1). exact Hd. }
  destruct (Hc r1 r2 (stint_key st) n H1 H2 Hd1 Hk1 Hk2) as [r [Hr [Hk Hrn]]].
  - unfold in_span in Hn. lia.
  - exists r. split; [|split; [exact Hrn|exact Hk]].
    apply laps_of_driver_In. split; [exact Hr|].
    rewrite <- (key_of_Driver r Hk). exact Hd.
Qed.

(** C7, as the code has it: for a driver with one lap per lap number, whose
    laps all have their stint and compound recorded and whose (driver, stint,
    compound) groups each consist of consecutive lap numbers, the [min, max]
    spans cover exactly the driver's lap numbers and no two of them
    overlap. *)
Theorem stint_spans_partition_consecutive_laps
        (rows : list Lap.t) (d : string) :
  NoDup (driver_lap_numbers d rows) ->
  keys_recorded rows d ->
  consecutive_groups rows d ->
  spans_cover_exactly rows d /\ spans_disjoint rows d.
Proof.
  intros Hnd Hrec Hc. split.
  - intro n. split.
    + intros [st [Hst Hn]].
      destruct (@span_member_lap rows d st n Hc Hst Hn) as [r [Hr [Hrn _]]].
      unfold driver_lap_numbers. rewrite <- Hrn. now apply in_map.
    + intro Hn. unfold driver_lap_numbers in Hn.
      apply in_map_iff in Hn. destruct Hn as [r [Hrn Hr]].
      apply laps_of_driver_In in Hr. destruct Hr as [Hr Hd].
      destruct (key_of r) as [k|] eqn:Hk; [|exfalso; exact (Hrec r Hr Hd Hk)].
      destruct (@lap_in_own_span rows r k Hr Hk) as [st [Hst [_ Hspan]]].
      exists st. rewrite <- Hd, <- Hrn. auto.
  - intros st1 st2 n H1 H2 Hneq [Hn1 Hn2].
    destruct (@span_member_lap rows d st1 n Hc H1 Hn1) as [r1 [Hr1 [Hrn1 Hk1]]].
    destruct (@span_member_lap rows d st2 n Hc H2 Hn2) as [r2 [Hr2 [Hrn2 Hk2]]].
    assert (E : r1 = r2).
    { apply (@NoDup_map_injective _ _ Lap.LapNumber (laps_of_driver d rows));
        auto. congruence. }
    subst r2.
    assert (Ek : stint_key st1 = stint_key st2) by congruence.
    destruct (@driver_stints_In d rows st1 H1) as [_ Ha1].
    destruct (@driver_stints_In d rows st2 H2) as [_ Ha2].
    rewrite Ek in Ha1. apply Hneq. congruence.
Qed.

Lemma stint_spans_partition_consecutive_laps_witness :
  NoDup (driver_lap_numbers "A" regular_session) /\
  keys_recorded regular_session "A" /\
  consecutive_groups regular_session "A" /\
  spans_cover_exactly regular_session "A" /\
  spans_disjoint regular_session "A".
Proof.
  assert (H1 : NoDup (driver_lap_numbers "A" regular_session)).
  { vm_compute. repeat constructor; simpl; intuition discriminate. }
  assert (H2 : keys_recorded regular_session "A").
  { intros r R _. simpl in R.
    repeat (destruct R as [<-|R]; [discriminate|]). contradiction. }
  assert (H3 : consecutive_groups regular_session "A").
  { intros r1 r2 k n R1 R2 _ Hk1 Hk2 Hn.
    exists (stint_lap "A" n (snd (fst k)) (snd k)).
    simpl in R1, R2.
    assert (Hcases : n = 1 \/ n = 2 \/ n = 3 \/ n = 4 \/ n = 5)
      by (repeat (destruct R1 as [<-|R1]; [simpl in Hn|]);
          try contradiction;
          repeat (destruct R2 as [<-|R2]; [simpl in Hn; lia|]);
          contradiction).
    repeat (destruct R1 as [<-|R1];
            [injection Hk1 as <-;
             repeat (destruct R2 as [<-|R2];
                     [try discriminate Hk2; simpl in Hn;
                      repeat (destruct Hcases as [->|Hcases]; try lia);
                      try (subst n); try lia;
                      simpl; repeat split; auto 10|]);
             contradiction|]).
    contradiction. }
  split; [exact H1|]. split; [exact H2|]. split; [exact H3|].
  exact (@stint_spans_partition_consecutive_laps regular_session "A" H1 H2 H3).
Defined.

(** On the patchy session the soft stint spans laps 1 to 5: it takes in lap
    4, which is not a lap of the driver, and lap 2, which lies in the medium
    span as well.  On the unlabelled session lap 3, whose compound is not
    recorded, is a lap of the driver and lies in no span. *)
Lemma stint_spans_do_not_partition :
  ~ spans_cover_exactly patchy_session "A" /\
  ~ spans_disjoint patchy_session "A" /\
  ~ spans_cover_exactly unlabelled_session "A".
Proof.
  split; [|split].
  - intro H. specialize (H 4). destruct H as [H _].
    assert (Hin : In 4 (driver_lap_numbers "A" patchy_session)).
    { apply H. exists (mkStint "A" 1 "SOFT" 1 5). split.
      - vm_compute. auto.
      - unfold in_span. simpl. lia. }
    vm_compute in Hin. intuition discriminate.
  - intro H.
    apply (H (mkStint "A" 1 "MEDIUM" 2 2) (mkStint "A" 1 "SOFT" 1 5) 2).
    + vm_compute. auto.
    + vm_compute. auto.
    + discriminate.
    + unfold in_span. simpl. lia.
  - intro H. specialize (H 3). destruct H as [_ H].
    destruct H as [st [Hst Hn]]; [vm_compute; auto|].
    vm_compute in Hst. destruct Hst as [<-|[]].
    unfold in_span in Hn. simpl in Hn. lia.
Qed.

(* ================================================================== *)
(** * The view builders on tables with missing lap times *)

Lemma raw_cumsum_length (rows : list Raw.Lap) :
  forall acc, List.length (Raw.cumsum_by_driver acc rows) = List.length rows.
Proof.
  induction rows as [|r rs IH]; intro acc; simpl; [reflexivity|].
  destruct (Raw.LapTime r); simpl; now rewrite IH.
Qed.

Lemma raw_set_column_label_ge (rows : list Raw.Lap) :
  forall i col r, In r (Raw.set_column i rows col) -> (i <= Raw.label r)%nat.
Proof.
  induction rows as [|x rs IH]; intros i col r H; simpl in H; [contradiction|].
  destruct col as [|c cs]; [contradiction|].
  destruct H as [<-|H]; simpl; [lia|].
  apply IH in H. lia.
Qed.

Lemma raw_set_column_labels (rows : list Raw.Lap) :
  forall i col, Raw.labels_increasing (Raw.set_column i rows col).
Proof.
  unfold Raw.labels_increasing.
  induction rows as [|x rs IH]; intros i col; simpl; [constructor|].
  destruct col as [|c cs]; simpl; [constructor|].
  constructor; [apply IH|].
  rewrite Forall_forall. intros l Hl. apply in_map_iff in Hl.
  destruct Hl as [r [<- Hr]]. apply raw_set_column_label_ge in Hr. lia.
Qed.

Lemma raw_with_cumulative_labels (rows : list Raw.Lap) :
  Raw.labels_increasing (Raw.with_cumulative rows).
Proof. apply raw_set_column_labels. Qed.

Lemma raw_set_column_lap (rows : list Raw.Lap) :
  forall i col, List.length col = List.length rows ->
                map Raw.lap (Raw.set_column i rows col) = rows.
Proof.
  induction rows as [|x rs IH]; intros i col Hlen; simpl; [reflexivity|].
  destruct col as [|c cs]; [discriminate|]. simpl.
  f_equal. apply IH. simpl in Hlen. lia.
Qed.

Lemma raw_with_cumulative_lap (rows : list Raw.Lap) :
  map Raw.lap (Raw.with_cumulative rows) = rows.
Proof. apply raw_set_column_lap, raw_cumsum_length. Qed.

Lemma raw_with_cumulative_LapNumber (rows : list Raw.Lap) :
  map Raw.lap_number (Raw.with_cumulative rows) = map Raw.LapNumber rows.
Proof.
  rewrite <- (raw_with_cumulative_lap rows) at 2. now rewrite map_map.
Qed.

Lemma raw_labels_filter (p : Raw.Row -> bool) (laps : list Raw.Row) :
  Raw.labels_increasing laps -> Raw.labels_increasing (filter p laps).
Proof.
  unfold Raw.labels_increasing.
  induction laps as [|r laps IH]; simpl; intro H; [constructor|].
  inversion H as [|? ? Hs Hall]; subst.
  destruct (p r); simpl; [|now apply IH].
  constructor; [now apply IH|].
  rewrite Forall_forall in *. intros l Hl. apply Hall.
  apply in_map_iff in Hl. destruct Hl as [x [<- Hx]].
  apply filter_In in Hx. apply in_map, Hx.
Qed.

Lemma raw_loc_single (laps : list Raw.Row) (m : Raw.Row) :
  Raw.labels_increasing laps -> In m laps ->
  filter (fun r => Nat.eqb (Raw.label r) (Raw.label m)) laps = [m].
Proof.
  unfold Raw.labels_increasing.
  induction laps as [|r laps IH]; simpl; intros H Hm; [contradiction|].
  inversion H as [|? ? Hs Hall]; subst. rewrite Forall_forall in Hall.
  destruct Hm as [->|Hm].
  - rewrite Nat.eqb_refl. f_equal.
    clear IH H. induction laps as [|x laps IH]; simpl; [reflexivity|].
    assert (Hx : (Raw.label m < Raw.label x)%nat)
      by (apply Hall; simpl; auto).
    destruct (Nat.eqb_spec (Raw.label x) (Raw.label m)); [lia|].
    apply IH; [now inversion Hs|]. intros y Hy. apply Hall. simpl. auto.
  - specialize (Hall _ (in_map Raw.label _ _ Hm)).
    destruct (Nat.eqb_spec (Raw.label r) (Raw.label m)); [lia|].
    now apply IH.
Qed.

(** The scan of [idxmin] over a group: it ends without a row exactly when no
    cell of the group is present, and otherwise on the first row that holds
    the least of the cells present. *)
Lemma raw_fold_keep_min (g : list Raw.Row) :
  forall best,
    Raw.labels_increasing g ->
    (forall b cb, best = Some (b, cb) ->
                  Raw.CumulativeTime b = Some cb /\
                  Forall (fun x => (Raw.label b < Raw.label x)%nat) g) ->
    match fold_left Raw.keep_min g best with
    | None => best = None /\
              forall x, In x g -> Raw.CumulativeTime x = None
    | Some (m, c) =>
        Raw.CumulativeTime m = Some c /\
        (In m g \/ best = Some (m, c)) /\
        (forall x c', In x g -> Raw.CumulativeTime x = Some c' ->
                      c <= c' /\ (c' = c -> (Raw.label m <= Raw.label x)%nat)) /\
        (forall b cb, best = Some (b, cb) -> c <= cb /\ (cb = c -> m = b))
    end.
Proof.
  unfold Raw.labels_increasing.
  induction g as [|y g IH]; intros best Hs Hb; simpl.
  - destruct best as [[b cb]|].
    + destruct (Hb b cb eq_refl) as [Hc _].
      split; [exact Hc|]. split; [now right|]. split; [intros x c' []|].
      intros b' cb' E. injection E as <- <-. split; [lia|auto].
    + split; [reflexivity|]. intros x [].
  - inversion Hs as [|? ? Hs' Hy]; subst.
    assert (Hrest : forall b cb, best = Some (b, cb) ->
                      Raw.CumulativeTime b = Some cb /\
                      Forall (fun x => (Raw.label b < Raw.label x)%nat) g).
    { intros b cb E. destruct (Hb b cb E) as [Hc Hall].
      split; [exact Hc|]. now inversion Hall. }
    assert (Hself : forall cy, Raw.CumulativeTime y = Some cy ->
                      forall b cb, Some (y, cy) = Some (b, cb) ->
                        Raw.CumulativeTime b = Some cb /\
                        Forall (fun x => (Raw.label b < Raw.label x)%nat) g).
    { intros cy Hcy b cb E. injection E as <- <-. split; [exact Hcy|].
      rewrite Forall_forall in *. intros x Hx. apply Hy. now apply in_map. }
    unfold Raw.keep_min at 2.
    destruct (Raw.CumulativeTime y) as [cy|] eqn:Hcy.
    + destruct best as [[b cb]|].
      * destruct (Z.ltb_spec cy cb) as [Hlt|Hge].
        -- specialize (IH (Some (y, cy)) Hs' (Hself cy eq_refl)).
           destruct (fold_left Raw.keep_min g (Some (y, cy))) as [[m c]|];
             [|destruct IH as [E _]; discriminate].
           destruct IH as [Hc [Hin [Hmin Hbest]]].
           destruct (Hbest y cy eq_refl) as [Hle Htie].
           split; [exact Hc|]. split.
           { left. destruct Hin as [Hin|E]; [now right|].
             injection E as <- _. now left. }
           split.
           { intros x c' [<-|Hx] Hx'; [|now apply Hmin].
             rewrite Hcy in Hx'. injection Hx' as <-.
             split; [exact Hle|]. intro E. rewrite (Htie E). lia. }
           intros b' cb' E. injection E as <- <-. split; [lia|lia].
        -- specialize (IH (Some (b, cb)) Hs' Hrest).
           destruct (fold_left Raw.keep_min g (Some (b, cb))) as [[m c]|];
             [|destruct IH as [E _]; discriminate].
           destruct IH as [Hc [Hin [Hmin Hbest]]].
           destruct (Hbest b cb eq_refl) as [Hle Htie].
           split; [exact Hc|]. split.
           { destruct Hin as [Hin|E]; [left; now right|now right]. }
           split; [|exact Hbest].
           intros x c' [<-|Hx] Hx'; [|now apply Hmin].
           rewrite Hcy in Hx'. injection Hx' as <-.
           split; [lia|]. intro E.
           assert (Emb : m = b) by (apply Htie; lia). subst m.
           destruct (Hb b cb eq_refl) as [_ Hall].
           inversion Hall; subst. lia.
      * specialize (IH (Some (y, cy)) Hs' (Hself cy eq_refl)).
        destruct (fold_left Raw.keep_min g (Some (y, cy))) as [[m c]|];
          [|destruct IH as [E _]; discriminate].
        destruct IH as [Hc [Hin [Hmin Hbest]]].
        destruct (Hbest y cy eq_refl) as [Hle Htie].
        split; [exact Hc|]. split.
        { left. destruct Hin as [Hin|E]; [now right|].
          injection E as <- _. now left. }
        split; [|intros b cb E; discriminate].
        intros x c' [<-|Hx] Hx'; [|now apply Hmin].
        rewrite Hcy in Hx'. injection Hx' as <-.
        split; [exact Hle|]. intro E. rewrite (Htie E). lia.
    + specialize (IH best Hs' Hrest).
      destruct (fold_left Raw.keep_min g best) as [[m c]|].
      * destruct IH as [Hc [Hin [Hmin Hbest]]].
        split; [exact Hc|]. split.
        { destruct Hin as [Hin|E]; [left; now right|now right]. }
        split; [|exact Hbest].
        intros x c' [<-|Hx] Hx'; [congruence|now apply Hmin].
      * destruct IH as [E Hnone]. split; [exact E|].
        intros x [<-|Hx]; [exact Hcy|now apply Hnone].
Qed.


Lemma raw_leader_of_spec (n : Z) (laps : list Raw.Row) :
  Raw.labels_increasing laps ->
  match raw_leader_of n laps with
  | None => forall x, In x laps -> Raw.lap_number x = n ->
                      Raw.CumulativeTime x = None
  | Some m =>
      In m laps /\ Raw.lap_number m = n /\
      exists c, Raw.CumulativeTime m = Some c /\
                forall x c', In x laps -> Raw.lap_number x = n ->
                             Raw.CumulativeTime x = Some c' ->
                             c <= c' /\
                             (c' = c -> (Raw.label m <= Raw.label x)%nat)
  end.
Proof.
  intro Hs. unfold raw_leader_of.
  assert (Hg : Raw.labels_increasing (Raw.group_of n laps))
    by now apply raw_labels_filter.
  pose proof (@raw_fold_keep_min (Raw.group_of n laps) None Hg) as H.
  destruct (fold_left Raw.keep_min (Raw.group_of n laps) None) as [[m c]|];
    cbn [option_map fst].
  - destruct H as [Hc [Hin [Hmin _]]]; [intros b cb E; discriminate|].
    destruct Hin as [Hin|E]; [|discriminate].
    apply filter_In in Hin. destruct Hin as [Hin Hn]. apply Z.eqb_eq in Hn.
    split; [exact Hin|]. split; [exact Hn|]. exists c. split; [exact Hc|].
    intros x c' Hx Hxn Hxc. apply Hmin; [|exact Hxc].
    apply filter_In. split; [exact Hx|]. now apply Z.eqb_eq.
  - destruct H as [_ Hnone]; [intros b cb E; discriminate|].
    intros x Hx Hxn. apply Hnone. apply filter_In.
    split; [exact Hx|]. now apply Z.eqb_eq.
Qed.

Lemma raw_idxmin_leader (n : Z) (laps : list Raw.Row) :
  Raw.idxmin (Raw.group_of n laps) = option_map Raw.label (raw_leader_of n laps).
Proof.
  unfold Raw.idxmin, raw_leader_of.
  now destruct (fold_left Raw.keep_min (Raw.group_of n laps) None) as [[m c]|].
Qed.

(** [loc] finds the row of every label that [idxmin] yields, and raises as
    soon as a lap number has none. *)
Lemma raw_loc_leaders (laps : list Raw.Row) (ks : list Z) :
  Raw.labels_increasing laps ->
  (forall n, In n ks -> raw_leader_of n laps <> None) ->
  Raw.loc laps (map (fun n => Raw.idxmin (Raw.group_of n laps)) ks)
  = Some (flat_map (fun n => leader_list n laps) ks).
Proof.
  intros Hs. induction ks as [|n ks IH]; intro Hall; [reflexivity|].
  cbn [map Raw.loc flat_map].
  rewrite raw_idxmin_leader. unfold leader_list at 1.
  pose proof (@raw_leader_of_spec n laps Hs) as Hm.
  destruct (raw_leader_of n laps) as [m|] eqn:E.
  - cbn [option_map]. destruct Hm as [Hin _].
    rewrite (@raw_loc_single laps m Hs Hin).
    rewrite IH by (intros k Hk; apply Hall; simpl; auto).
    reflexivity.
  - exfalso. apply (Hall n); simpl; auto.
Qed.

Lemma raw_loc_missing (laps : list Raw.Row) (ks : list Z) (n : Z) :
  In n ks -> raw_leader_of n laps = None ->
  Raw.loc laps (map (fun n => Raw.idxmin (Raw.group_of n laps)) ks) = None.
Proof.
  induction ks as [|k ks IH]; intros Hn E; [contradiction|].
  cbn [map Raw.loc]. rewrite raw_idxmin_leader.
  destruct Hn as [->|Hn].
  - now rewrite E.
  - destruct (raw_leader_of k laps) as [m|]; cbn [option_map]; [|reflexivity].
    rewrite (IH Hn E).
    now destruct (filter (fun r => Nat.eqb (Raw.label r) (Raw.label m)) laps).
Qed.

(** Every lap number of the table has a row with a cumulative time. *)
Lemma raw_leader_laps_returns (laps : list Raw.Row) :
  Raw.labels_increasing laps ->
  (forall x, In x laps ->
             exists y, In y laps /\ Raw.lap_number y = Raw.lap_number x /\
                       Raw.CumulativeTime y <> None) ->
  Raw.leader_laps laps
  = Some (flat_map (fun n => leader_list n laps)
                   (group_keys (map Raw.lap_number laps))).
Proof.
  intros Hs Hall. unfold Raw.leader_laps, Raw.groupby_LapNumber_idxmin.
  apply raw_loc_leaders; [exact Hs|].
  intros n Hn E. apply group_keys_In, in_map_iff in Hn.
  destruct Hn as [x [Hxn Hx]].
  destruct (Hall x Hx) as [y [Hy [Hyn Hyc]]].
  pose proof (@raw_leader_of_spec n laps Hs) as H. rewrite E in H.
  apply Hyc, H; [exact Hy|congruence].
Qed.

Lemma raw_leader_laps_raises (laps : list Raw.Row) (x : Raw.Row) :
  Raw.labels_increasing laps ->
  In x laps ->
  (forall y, In y laps -> Raw.lap_number y = Raw.lap_number x ->
             Raw.CumulativeTime y = None) ->
  Raw.leader_laps laps = None.
Proof.
  intros Hs Hx Hnone. unfold Raw.leader_laps, Raw.groupby_LapNumber_idxmin.
  apply raw_loc_missing with (n := Raw.lap_number x).
  - apply group_keys_In. now apply in_map.
  - pose proof (@raw_leader_of_spec (Raw.lap_number x) laps Hs) as H.
    destruct (raw_leader_of (Raw.lap_number x) laps) as [m|]; [|reflexivity].
    destruct H as [Hm [Hmn [c [Hc _]]]].
    rewrite (Hnone m Hm Hmn) in Hc. discriminate.
Qed.

Lemma raw_leaders_LapNumber (laps : list Raw.Row) (ks : list Z) :
  Raw.labels_increasing laps ->
  (forall n, In n ks -> raw_leader_of n laps <> None) ->
  map Raw.lap_number (flat_map (fun n => leader_list n laps) ks) = ks.
Proof.
  intros Hs. induction ks as [|n ks IH]; intro Hall; [reflexivity|].
  cbn [flat_map]. rewrite map_app, IH by (intros k Hk; apply Hall; simpl; auto).
  unfold leader_list.
  pose proof (@raw_leader_of_spec n laps Hs) as H.
  destruct (raw_leader_of n laps) as [m|] eqn:E.
  - destruct H as [_ [Hn _]]. simpl. now rewrite Hn.
  - exfalso. apply (Hall n); simpl; auto.
Qed.

(** What a call that returns has found: the leaders of the lap numbers in
    ascending order. *)
Lemma raw_leader_laps_inv (laps leaders : list Raw.Row) :
  Raw.labels_increasing laps ->
  Raw.leader_laps laps = Some leaders ->
  (forall n, In n (map Raw.lap_number laps) -> raw_leader_of n laps <> None) /\
  leaders = flat_map (fun n => leader_list n laps)
                     (group_keys (map Raw.lap_number laps)) /\
  map Raw.lap_number leaders = group_keys (map Raw.lap_number laps).
Proof.
  intros Hs H.
  assert (Hall : forall n, In n (group_keys (map Raw.lap_number laps)) ->
                           raw_leader_of n laps <> None).
  { intros n Hn E.
    unfold Raw.leader_laps, Raw.groupby_LapNumber_idxmin in H.
    rewrite (@raw_loc_missing laps _ n Hn E) in H. discriminate. }
  split; [intros n Hn; apply Hall; now apply group_keys_In|].
  unfold Raw.leader_laps, Raw.groupby_LapNumber_idxmin in H.
  rewrite (@raw_loc_leaders laps _ Hs Hall) in H. injection H as <-.
  split; [reflexivity|]. now apply raw_leaders_LapNumber.
Qed.

Lemma raw_leader_laps_In (laps leaders : list Raw.Row) (l : Raw.Row) :
  Raw.labels_increasing laps ->
  Raw.leader_laps laps = Some leaders ->
  In l leaders <-> raw_leader_of (Raw.lap_number l) laps = Some l.
Proof.
  intros Hs H. destruct (@raw_leader_laps_inv laps leaders Hs H) as [Hall [-> _]].
  split.
  - intro Hl. apply in_flat_map in Hl. destruct Hl as [n [_ Hl]].
    unfold leader_list in Hl.
    pose proof (@raw_leader_of_spec n laps Hs) as Hm.
    destruct (raw_leader_of n laps) as [m|] eqn:E; [|contradiction].
    destruct Hl as [<-|[]]. destruct Hm as [_ [Hn _]]. now rewrite Hn.
  - intro E. apply in_flat_map. exists (Raw.lap_number l). split.
    + pose proof (@raw_leader_of_spec (Raw.lap_number l) laps Hs) as Hm.
      rewrite E in Hm. destruct Hm as [Hin _].
      apply group_keys_In. now apply in_map.
    + unfold leader_list. rewrite E. simpl. auto.
Qed.

Lemma raw_leader_laps_spec (laps leaders : list Raw.Row) (l : Raw.Row) :
  Raw.labels_increasing laps ->
  Raw.leader_laps laps = Some leaders ->
  In l leaders ->
  In l laps /\
  exists c, Raw.CumulativeTime l = Some c /\
            forall x c', In x laps -> Raw.lap_number x = Raw.lap_number l ->
                         Raw.CumulativeTime x = Some c' ->
                         c <= c' /\
                         (c' = c -> (Raw.label l <= Raw.label x)%nat).
Proof.
  intros Hs H Hl. apply (@raw_leader_laps_In laps leaders l Hs H) in Hl.
  pose proof (@raw_leader_of_spec (Raw.lap_number l) laps Hs) as Hm.
  rewrite Hl in Hm. destruct Hm as [Hin [_ Hc]]. auto.
Qed.

(* ------------------------------------------------------------------ *)
(** ** The running total in 64 bits *)

Lemma two64_pos : 0 < 2 ^ 64.
Proof. reflexivity. Qed.

Lemma wrap64_add_l (a b : Z) :
  Raw.wrap64 (Raw.wrap64 a + b) = Raw.wrap64 (a + b).
Proof.
  unfold Raw.wrap64.
  replace ((a + 2 ^ 63) mod 2 ^ 64 - 2 ^ 63 + b + 2 ^ 63)
    with ((a + 2 ^ 63) mod 2 ^ 64 + b) by ring.
  rewrite Z.add_mod_idemp_l by (pose proof two64_pos; lia).
  do 2 f_equal. ring.
Qed.

Lemma wrap64_in_range (z : Z) :
  Raw.int64_min <= z <= Raw.int64_max -> Raw.wrap64 z = z.
Proof.
  unfold Raw.int64_min, Raw.int64_max, Raw.wrap64. intro H.
  rewrite Z.mod_small; [ring|].
  change (2 ^ 64) with (2 ^ 63 + 2 ^ 63). lia.
Qed.

Lemma of_int64_in_range (z : Z) :
  Raw.in_int64 z -> Raw.of_int64 (Raw.wrap64 z) = Some z.
Proof.
  unfold Raw.in_int64. intro H.
  rewrite wrap64_in_range by lia. unfold Raw.of_int64.
  destruct (Z.eqb_spec z Raw.int64_min); [lia|reflexivity].
Qed.

Lemma raw_running_sum_cons (x : Raw.Lap) (rs : list Raw.Lap) (k : nat)
      (d : string) :
  Raw.running_sum (x :: rs) (S k) d
  = (if String.eqb (Raw.Driver x) d then Raw.duration x else 0)
    + Raw.running_sum rs k d.
Proof.
  unfold Raw.running_sum. cbn [firstn filter].
  destruct (String.eqb (Raw.Driver x) d); cbn [map fold_right]; lia.
Qed.

Lemma raw_running_sum_head (x : Raw.Lap) (rs : list Raw.Lap) :
  Raw.running_sum (x :: rs) 0 (Raw.Driver x) = Raw.duration x.
Proof.
  unfold Raw.running_sum. cbn [firstn filter].
  rewrite String.eqb_refl. cbn [map fold_right]. lia.
Qed.

(** The cell that the assignment writes on each row: missing where the lap
    time is missing, and otherwise the low 64 bits of the sum of the lap
    times present on the driver's rows so far. *)
Lemma raw_set_column_cumsum (rows : list Raw.Lap) :
  forall i acc r,
    In r (Raw.set_column i rows (Raw.cumsum_by_driver acc rows)) ->
    (i <= Raw.label r)%nat /\
    nth_error rows (Raw.label r - i) = Some (Raw.lap r) /\
    Raw.CumulativeTime r
    = match Raw.LapTime (Raw.lap r) with
      | None => None
      | Some _ =>
          Raw.of_int64
            (Raw.wrap64 (acc (Raw.Driver (Raw.lap r))
                         + Raw.running_sum rows (Raw.label r - i)
                                           (Raw.Driver (Raw.lap r))))
      end.
Proof.
  induction rows as [|x rs IH]; intros i acc r H; [contradiction|].
  cbn [Raw.cumsum_by_driver] in H.
  destruct (Raw.LapTime x) as [val|] eqn:Ex; cbn [Raw.set_column] in H;
    (destruct H as [<-|H];
     [cbn [Raw.label Raw.lap Raw.CumulativeTime]; rewrite Nat.sub_diag, Ex;
      cbn [nth_error]; repeat split; try lia|]).
  - rewrite raw_running_sum_head. unfold Raw.duration. now rewrite Ex.
  - apply IH in H. destruct H as [Hi [Hnth Hc]].
    replace (Raw.label r - i)%nat with (S (Raw.label r - S i)) by lia.
    rewrite raw_running_sum_cons. cbn [nth_error].
    repeat split; [lia|exact Hnth|]. rewrite Hc.
    destruct (Raw.LapTime (Raw.lap r)); [|reflexivity].
    f_equal. rewrite (String.eqb_sym (Raw.Driver x)).
    destruct (String.eqb (Raw.Driver (Raw.lap r)) (Raw.Driver x)) eqn:E.
    + apply String.eqb_eq in E. rewrite E.
      rewrite wrap64_add_l. f_equal. unfold Raw.duration. rewrite Ex. ring.
    + f_equal; ring.
  - apply IH in H. destruct H as [Hi [Hnth Hc]].
    replace (Raw.label r - i)%nat with (S (Raw.label r - S i)) by lia.
    rewrite raw_running_sum_cons. cbn [nth_error].
    repeat split; [lia|exact Hnth|]. rewrite Hc.
    destruct (Raw.LapTime (Raw.lap r)); [|reflexivity].
    unfold Raw.duration. rewrite Ex.
    destruct (String.eqb (Raw.Driver x) (Raw.Driver (Raw.lap r)));
      do 2 f_equal; ring.
Qed.

Lemma raw_with_cumulative_cell (rows : list Raw.Lap) (r : Raw.Row) :
  In r (Raw.with_cumulative rows) ->
  nth_error rows (Raw.label r) = Some (Raw.lap r) /\
  Raw.CumulativeTime r
  = match Raw.LapTime (Raw.lap r) with
    | None => None
    | Some _ =>
        Raw.of_int64
          (Raw.wrap64 (Raw.running_sum rows (Raw.label r)
                                       (Raw.Driver (Raw.lap r))))
    end.
Proof.
  intro H. apply raw_set_column_cumsum in H. destruct H as [_ [Hnth Hc]].
  rewrite Nat.sub_0_r in *. split; [exact Hnth|]. rewrite Hc.
  destruct (Raw.LapTime (Raw.lap r)); reflexivity.
Qed.

Lemma raw_with_cumulative_running_sum (rows : list Raw.Lap) (r : Raw.Row) :
  Raw.no_overflow rows ->
  In r (Raw.with_cumulative rows) ->
  nth_error rows (Raw.label r) = Some (Raw.lap r) /\
  Raw.CumulativeTime r
  = option_map (fun _ => Raw.running_sum rows (Raw.label r)
                                         (Raw.Driver (Raw.lap r)))
               (Raw.LapTime (Raw.lap r)).
Proof.
  intros Hno H. apply raw_with_cumulative_cell in H. destruct H as [Hnth Hc].
  split; [exact Hnth|]. rewrite Hc.
  destruct (Raw.LapTime (Raw.lap r)); cbn [option_map]; [|reflexivity].
  apply of_int64_in_range, Hno.
Qed.

Lemma raw_with_cumulative_In (rows : list Raw.Lap) (x : Raw.Lap) :
  In x rows -> exists r, In r (Raw.with_cumulative rows) /\ Raw.lap r = x.
Proof.
  intro H. rewrite <- (raw_with_cumulative_lap rows) in H.
  apply in_map_iff in H. destruct H as [r [E Hr]]. eauto.
Qed.

Lemma raw_with_cumulative_lap_In (rows : list Raw.Lap) (r : Raw.Row) :
  In r (Raw.with_cumulative rows) -> In (Raw.lap r) rows.
Proof.
  intro H. rewrite <- (raw_with_cumulative_lap rows). now apply in_map.
Qed.

(** When every lap number has a timed lap and no total overflows, every lap
    number has a row with a cumulative time. *)
Lemma raw_every_lap_has_total (rows : list Raw.Lap) :
  Raw.every_lap_timed rows -> Raw.no_overflow rows ->
  forall x, In x (Raw.with_cumulative rows) ->
            exists y, In y (Raw.with_cumulative rows) /\
                      Raw.lap_number y = Raw.lap_number x /\
                      Raw.CumulativeTime y <> None.
Proof.
  intros Ht Hno x Hx.
  destruct (Ht _ (@raw_with_cumulative_lap_In rows x Hx)) as [r' [Hr' [Hn Hl]]].
  destruct (@raw_with_cumulative_In rows r' Hr') as [y [Hy E]].
  exists y. split; [exact Hy|]. split; [unfold Raw.lap_number; now rewrite E|].
  destruct (@raw_with_cumulative_running_sum rows y Hno Hy) as [_ Hc]. rewrite Hc, E.
  destruct (Raw.LapTime r'); [discriminate|congruence].
Qed.

(** Durations that are not negative and add up to a 64-bit value never
    overflow. *)
Lemma running_sum_bounds (rows : list Raw.Lap) :
  (forall r, In r rows -> 0 <= Raw.duration r) ->
  forall i d, 0 <= Raw.running_sum rows i d
              <= fold_right Z.add 0 (map Raw.duration rows).
Proof.
  induction rows as [|x rs IH]; intros Hpos i d.
  - unfold Raw.running_sum. simpl. lia.
  - assert (Hx : 0 <= Raw.duration x) by (apply Hpos; simpl; auto).
    assert (Hrs : forall r, In r rs -> 0 <= Raw.duration r)
      by (intros r Hr; apply Hpos; simpl; auto).
    cbn [map fold_right].
    destruct i as [|i].
    + unfold Raw.running_sum. cbn [firstn filter].
      specialize (IH Hrs 0%nat d).
      destruct (String.eqb (Raw.Driver x) d); cbn [map fold_right]; lia.
    + rewrite raw_running_sum_cons. specialize (IH Hrs i d).
      destruct (String.eqb (Raw.Driver x) d); lia.
Qed.

Lemma no_overflow_bounded (rows : list Raw.Lap) :
  (forall r, In r rows -> 0 <= Raw.duration r) ->
  fold_right Z.add 0 (map Raw.duration rows) <= Raw.int64_max ->
  Raw.no_overflow rows.
Proof.
  intros Hpos Hsum i d. pose proof (@running_sum_bounds rows Hpos i d) as H.
  unfold Raw.in_int64, Raw.int64_min, Raw.int64_max in *.
  assert (0 < 2 ^ 63) by reflexivity. lia.
Qed.


Lemma raw_label_injective (laps : list Raw.Row) (a b : Raw.Row) :
  Raw.labels_increasing laps -> In a laps -> In b laps ->
  Raw.label a = Raw.label b -> a = b.
Proof.
  intros Hs Ha Hb E.
  assert (H : In b (filter (fun r => Nat.eqb (Raw.label r) (Raw.label a)) laps)).
  { apply filter_In. split; [exact Hb|]. apply Nat.eqb_eq. congruence. }
  rewrite (@raw_loc_single laps a Hs Ha) in H.
  destruct H as [H|[]]. exact H.
Qed.

(** The row that [idxmin] designates is the only leader of its lap number. *)
Lemma raw_leader_of_is_leader (laps : list Raw.Row) (l : Raw.Row) :
  Raw.labels_increasing laps ->
  raw_leader_of (Raw.lap_number l) laps = Some l <-> is_leader laps l.
Proof.
  intro Hs.
  pose proof (@raw_leader_of_spec (Raw.lap_number l) laps Hs) as H.
  split.
  - intro E. rewrite E in H. destruct H as [Hin [_ Hc]]. split; assumption.
  - intros [Hin [c [Hc Hmin]]].
    destruct (raw_leader_of (Raw.lap_number l) laps) as [m|].
    + destruct H as [Hm [Hmn [cm [Hcm Hmmin]]]].
      destruct (Hmmin l c Hin eq_refl Hc) as [H1 H2].
      destruct (Hmin m cm Hm Hmn Hcm) as [H3 H4].
      assert (Ec : cm = c) by lia.
      f_equal. apply (@raw_label_injective laps m l Hs Hm Hin).
      specialize (H2 (eq_sym Ec)). specialize (H4 Ec). lia.
    + rewrite (H l Hin eq_refl) in Hc. discriminate.
Qed.

Lemma raw_leader_laps_total (laps : list Raw.Row) :
  Raw.labels_increasing laps ->
  (exists leaders, Raw.leader_laps laps = Some leaders)
  <-> every_lap_has_total laps.
Proof.
  intro Hs. split.
  - intros [leaders H] x Hx.
    destruct (@raw_leader_laps_inv laps leaders Hs H) as [Hall _].
    pose proof (@raw_leader_of_spec (Raw.lap_number x) laps Hs) as Hm.
    destruct (raw_leader_of (Raw.lap_number x) laps) as [m|] eqn:E.
    + destruct Hm as [Hin [Hn [c [Hc _]]]].
      exists m. split; [exact Hin|]. split; [exact Hn|]. congruence.
    + exfalso. apply (Hall (Raw.lap_number x)); [now apply in_map|exact E].
  - intro Hall. eexists. now apply raw_leader_laps_returns.
Qed.

Lemma raw_leader_laps_leaders (laps leaders : list Raw.Row) (l : Raw.Row) :
  Raw.labels_increasing laps ->
  Raw.leader_laps laps = Some leaders ->
  In l leaders <-> is_leader laps l.
Proof.
  intros Hs H.
  rewrite (@raw_leader_laps_In laps leaders l Hs H).
  now apply raw_leader_of_is_leader.
Qed.

Lemma raw_example_no_overflow : Raw.no_overflow raw_example_session.
Proof.
  apply no_overflow_bounded.
  - intros r Hr. vm_compute in Hr.
    repeat (destruct Hr as [<-|Hr]; [vm_compute; discriminate|]).
    contradiction.
  - vm_compute. discriminate.
Qed.

Lemma raw_example_every_lap_timed : Raw.every_lap_timed raw_example_session.
Proof.
  intros r Hr. exists r. split; [exact Hr|]. split; [reflexivity|].
  vm_compute in Hr.
  repeat (destruct Hr as [<-|Hr]; [discriminate|]). contradiction.
Qed.

(** C1: on a lap table in which every lap number has a lap with a lap time,
    and on which no running total leaves the range of 64-bit durations, the
    leader-lap view is built and has exactly one row for each distinct lap
    number; the cumulative time of that row is the running sum of the lap
    times present on its driver's rows, and it is at most the running sum of
    every row of the same lap number that has a lap time; among rows that tie
    on it the one that comes first in input order is chosen.  A row without
    lap time has no cumulative time and is never a leader.  On the session
    with A = 90, 91, 89 and B = 92, 88, 90 the cumulative times are 90, 181,
    270 and 92, 180, 270 and the leaders are A, B, A. *)
Theorem leader_laps_minimal_among_timed_laps (rows : list Raw.Lap) :
  Raw.every_lap_timed rows ->
  Raw.no_overflow rows ->
  let laps := Raw.with_cumulative rows in
  let total r := Raw.running_sum rows (Raw.label r) (Raw.Driver (Raw.lap r)) in
  (forall r, In r laps ->
     nth_error rows (Raw.label r) = Some (Raw.lap r) /\
     Raw.CumulativeTime r
     = option_map (fun _ => total r) (Raw.LapTime (Raw.lap r))) /\
  (exists leaders,
     Raw.leader_laps laps = Some leaders /\
     NoDup (map Raw.lap_number leaders) /\
     (forall n, In n (map Raw.lap_number leaders)
                <-> In n (map Raw.LapNumber rows)) /\
     (forall l, In l leaders ->
        In l laps /\
        Raw.LapTime (Raw.lap l) <> None /\
        Raw.CumulativeTime l = Some (total l) /\
        forall x, In x laps -> Raw.lap_number x = Raw.lap_number l ->
                  Raw.LapTime (Raw.lap x) <> None ->
                  total l <= total x /\
                  (total x = total l -> (Raw.label l <= Raw.label x)%nat))) /\
  map Raw.CumulativeTime (Raw.with_cumulative raw_example_session)
    = [Some 90; Some 181; Some 270; Some 92; Some 180; Some 270] /\
  option_map
    (map (fun r => (Raw.lap_number r, Raw.Driver (Raw.lap r),
                    Raw.CumulativeTime r)))
    (Raw.leader_laps (Raw.with_cumulative raw_example_session))
    = Some [(1, "A", Some 90); (2, "B", Some 180); (3, "A", Some 270)].
Proof.
  intros Ht Hno laps total.
  assert (Hs : Raw.labels_increasing laps) by apply raw_with_cumulative_labels.
  assert (Hcell : forall r, In r laps ->
            nth_error rows (Raw.label r) = Some (Raw.lap r) /\
            Raw.CumulativeTime r
            = option_map (fun _ => total r) (Raw.LapTime (Raw.lap r)))
    by (intros r Hr; now apply raw_with_cumulative_running_sum).
  split; [exact Hcell|]. split; [|split; reflexivity].
  assert (Hall : every_lap_has_total laps)
    by (intros x Hx; now apply raw_every_lap_has_total).
  exists (flat_map (fun n => leader_list n laps)
                   (group_keys (map Raw.lap_number laps))).
  assert (H : Raw.leader_laps laps
              = Some (flat_map (fun n => leader_list n laps)
                               (group_keys (map Raw.lap_number laps))))
    by now apply raw_leader_laps_returns.
  split; [exact H|].
  destruct (@raw_leader_laps_inv laps _ Hs H) as [_ [_ Hk]].
  rewrite Hk. unfold laps at 1 2. rewrite raw_with_cumulative_LapNumber.
  split; [apply group_keys_NoDup|].
  split; [intro n; apply group_keys_In|].
  intros l Hl.
  destruct (@raw_leader_laps_spec laps _ l Hs H Hl) as [Hin [c [Hc Hmin]]].
  destruct (Hcell l Hin) as [_ Hcl].
  split; [exact Hin|].
  destruct (Raw.LapTime (Raw.lap l)) as [v|] eqn:El;
    cbn [option_map] in Hcl; [|congruence].
  split; [discriminate|]. split; [exact Hcl|].
  intros x Hx Hxn Hxt.
  destruct (Hcell x Hx) as [_ Hcx].
  destruct (Raw.LapTime (Raw.lap x)) as [vx|]; [|congruence].
  cbn [option_map] in Hcx.
  assert (Ec : c = total l) by congruence. subst c.
  destruct (Hmin x (total x) Hx Hxn Hcx) as [H1 H2]. split; assumption.
Qed.

Lemma leader_laps_minimal_among_timed_laps_witness :
  let rows := raw_example_session in
  let laps := Raw.with_cumulative rows in
  let total r := Raw.running_sum rows (Raw.label r) (Raw.Driver (Raw.lap r)) in
  Raw.every_lap_timed rows /\
  Raw.no_overflow rows /\
  (forall r, In r laps ->
     nth_error rows (Raw.label r) = Some (Raw.lap r) /\
     Raw.CumulativeTime r
     = option_map (fun _ => total r) (Raw.LapTime (Raw.lap r))) /\
  (exists leaders,
     Raw.leader_laps laps = Some leaders /\
     NoDup (map Raw.lap_number leaders) /\
     (forall n, In n (map Raw.lap_number leaders)
                <-> In n (map Raw.LapNumber rows)) /\
     (forall l, In l leaders ->
        In l laps /\
        Raw.LapTime (Raw.lap l) <> None /\
        Raw.CumulativeTime l = Some (total l) /\
        forall x, In x laps -> Raw.lap_number x = Raw.lap_number l ->
                  Raw.LapTime (Raw.lap x) <> None ->
                  total l <= total x /\
                  (total x = total l -> (Raw.label l <= Raw.label x)%nat))) /\
  map Raw.CumulativeTime (Raw.with_cumulative raw_example_session)
    = [Some 90; Some 181; Some 270; Some 92; Some 180; Some 270] /\
  option_map
    (map (fun r => (Raw.lap_number r, Raw.Driver (Raw.lap r),
                    Raw.CumulativeTime r)))
    (Raw.leader_laps (Raw.with_cumulative raw_example_session))
    = Some [(1, "A", Some 90); (2, "B", Some 180); (3, "A", Some 270)].
Proof.
  intros rows laps total.
  split; [exact raw_example_every_lap_timed|].
  split; [exact raw_example_no_overflow|].
  exact (@leader_laps_minimal_among_timed_laps
           rows raw_example_every_lap_timed raw_example_no_overflow).
Defined.

(** Two tables on which the leader-lap view is not the one row per lap number
    with the least running sum.  On the first, no lap of number 2 has a lap
    time: [idxmin] has no label for lap 2 and [loc] raises, so that no view
    is built.  On the second, the running sum of A after lap 2 does not fit in
    64 bits: the stored total has wrapped to a negative value, and A is chosen
    as the leader of lap 2 although its running sum is greater than that of
    B. *)
Lemma leader_view_missing_or_wrapped :
  (forall leaders,
      Raw.leader_laps (Raw.with_cumulative untimed_session) <> Some leaders) /\
  Raw.get_track_status_by_lap untimed_session = None /\
  (exists leaders l x,
      Raw.leader_laps (Raw.with_cumulative overflowing_session) = Some leaders /\
      In l leaders /\
      In x (Raw.with_cumulative overflowing_session) /\
      Raw.lap_number x = Raw.lap_number l /\
      Raw.LapTime (Raw.lap x) <> None /\
      Raw.running_sum overflowing_session (Raw.label x) (Raw.Driver (Raw.lap x))
      < Raw.running_sum overflowing_session (Raw.label l)
                        (Raw.Driver (Raw.lap l)) /\
      Raw.CumulativeTime l = Some (- 9223372036854775807)).
Proof.
  split; [intros leaders; vm_compute; discriminate|].
  split; [reflexivity|].
  exists [Raw.mkRow 2 (raw_lap "B" 1 (Some 10)) (Some 10);
          Raw.mkRow 1 (raw_lap "A" 2 (Some (2 ^ 62 + 1)))
                    (Some (- 9223372036854775807))].
  exists (Raw.mkRow 1 (raw_lap "A" 2 (Some (2 ^ 62 + 1)))
                    (Some (- 9223372036854775807))).
  exists (Raw.mkRow 3 (raw_lap "B" 2 (Some 10)) (Some 20)).
  split; [vm_compute; reflexivity|].
  split; [simpl; auto|].
  split; [vm_compute; auto 10|].
  split; [reflexivity|].
  split; [discriminate|].
  split; [vm_compute; reflexivity|reflexivity].
Qed.

(* ================================================================== *)
(** * Further properties of the view builders *)

Lemma sorted_le_NoDup_lt (l : list Z) :
  StronglySorted Z.le l -> NoDup l -> StronglySorted Z.lt l.
Proof.
  induction 1 as [|x l Hs IH Hx]; intro Hnd; constructor.
  - apply IH. now inversion Hnd.
  - inversion Hnd as [|? ? Hnot _]; subst.
    rewrite Forall_forall in *. intros y Hy.
    specialize (Hx y Hy). assert (x <> y) by congruence. lia.
Qed.

Lemma raw_total_needs_lap_time (rows : list Raw.Lap) :
  every_lap_has_total (Raw.with_cumulative rows) -> Raw.every_lap_timed rows.
Proof.
  intros Hall r Hr.
  destruct (@raw_with_cumulative_In rows r Hr) as [x [Hx E]].
  destruct (Hall x Hx) as [y [Hy [Hn Hc]]].
  exists (Raw.lap y). split; [now apply raw_with_cumulative_lap_In|].
  split; [unfold Raw.lap_number in Hn; congruence|].
  destruct (@raw_with_cumulative_cell rows y Hy) as [_ Hcy].
  destruct (Raw.LapTime (Raw.lap y)); [discriminate|congruence].
Qed.

Lemma raw_track_status_In (leaders : list Raw.Row) (n : Z) (status : string) :
  In (n, status)
     (map (fun r => (Raw.lap_number r, Raw.TrackStatus (Raw.lap r))) leaders)
  <-> exists l, In l leaders /\ Raw.lap_number l = n /\
                Raw.TrackStatus (Raw.lap l) = status.
Proof.
  rewrite in_map_iff. split.
  - intros [l [E Hl]]. injection E as <- <-. eauto.
  - intros [l [Hl [<- <-]]]. eauto.
Qed.

(** X1: [get_track_status_by_lap] returns exactly when every lap number of
    the table has a row with a cumulative time, which, when no running total
    overflows, is to say a lap with a lap time; otherwise it raises.  When it
    returns, the result has one row for each distinct lap number of the
    session, in strictly ascending order of lap number, and the status of
    each row is the one recorded on the leader's row of that lap number. *)
Theorem track_status_by_lap_ascending_leader_codes (rows : list Raw.Lap) :
  let laps := Raw.with_cumulative rows in
  ((exists v, Raw.get_track_status_by_lap rows = Some v)
   <-> every_lap_has_total laps) /\
  (every_lap_has_total laps -> Raw.every_lap_timed rows) /\
  (Raw.no_overflow rows -> Raw.every_lap_timed rows ->
   every_lap_has_total laps) /\
  (forall v, Raw.get_track_status_by_lap rows = Some v ->
     map fst v = group_keys (map Raw.LapNumber rows) /\
     StronglySorted Z.lt (map fst v) /\
     (forall n, In n (map fst v) <-> In n (map Raw.LapNumber rows)) /\
     (forall n status,
         In (n, status) v <->
         exists l, is_leader laps l /\ Raw.lap_number l = n /\
                   Raw.TrackStatus (Raw.lap l) = status)).
Proof.
  intro laps.
  assert (Hs : Raw.labels_increasing laps) by apply raw_with_cumulative_labels.
  split.
  { rewrite <- (@raw_leader_laps_total laps Hs).
    unfold Raw.get_track_status_by_lap, Raw.track_status. fold laps.
    destruct (Raw.leader_laps laps) as [leaders|]; cbn [option_map].
    - split; eauto.
    - split; intros [v E]; discriminate. }
  split; [apply raw_total_needs_lap_time|].
  split; [intros Hno Ht x Hx; now apply raw_every_lap_has_total|].
  intros v Hv.
  unfold Raw.get_track_status_by_lap, Raw.track_status in Hv. fold laps in Hv.
  destruct (Raw.leader_laps laps) as [leaders|] eqn:H; [|discriminate].
  cbn [option_map] in Hv. injection Hv as <-.
  assert (E : map fst (map (fun r => (Raw.lap_number r,
                                      Raw.TrackStatus (Raw.lap r))) leaders)
              = group_keys (map Raw.LapNumber rows)).
  { rewrite map_map. cbn [fst].
    destruct (@raw_leader_laps_inv laps leaders Hs H) as [_ [_ Hk]].
    change (map (fun x => Raw.lap_number x) leaders)
      with (map Raw.lap_number leaders).
    rewrite Hk. unfold laps. now rewrite raw_with_cumulative_LapNumber. }
  split; [exact E|]. rewrite E.
  split; [apply sorted_le_NoDup_lt;
          [apply group_keys_sorted|apply group_keys_NoDup]|].
  split; [intro n; apply group_keys_In|].
  intros n status. rewrite raw_track_status_In.
  split; intros [l [Hl Hrest]]; exists l; (split; [|exact Hrest]);
    now apply (@raw_leader_laps_leaders laps leaders l Hs H).
Qed.

(** Lap 1 of A has no lap time: its row has no cumulative time, A's total
    after lap 2 is the time of lap 2 alone, and the leader of lap 1 is B. *)
Example partly_timed_leaders :
  map Raw.CumulativeTime (Raw.with_cumulative partly_timed_session)
    = [None; Some 91; Some 92; Some 180] /\
  option_map
    (map (fun r => (Raw.lap_number r, Raw.Driver (Raw.lap r),
                    Raw.CumulativeTime r)))
    (Raw.leader_laps (Raw.with_cumulative partly_timed_session))
    = Some [(1, "B", Some 92); (2, "A", Some 91)] /\
  Raw.get_track_status_by_lap partly_timed_session = Some [(1, "1"); (2, "1")].
Proof. repeat split. Qed.

Lemma raw_running_sum_zero (x : Raw.Lap) (rs : list Raw.Lap) (d : string) :
  Raw.running_sum (x :: rs) 0 d
  = if String.eqb (Raw.Driver x) d then Raw.duration x else 0.
Proof.
  unfold Raw.running_sum. cbn [firstn filter].
  destruct (String.eqb (Raw.Driver x) d); cbn [map fold_right]; lia.
Qed.

(** The sum over a longer prefix is no smaller, when no duration is
    negative. *)
Lemma running_sum_mono (rows : list Raw.Lap) :
  (forall r, In r rows -> 0 <= Raw.duration r) ->
  forall i j d, (i <= j)%nat ->
                Raw.running_sum rows i d <= Raw.running_sum rows j d.
Proof.
  induction rows as [|x rs IH]; intros Hpos i j d Hij.
  - unfold Raw.running_sum. simpl. lia.
  - assert (Hrs : forall r, In r rs -> 0 <= Raw.duration r)
      by (intros r Hr; apply Hpos; simpl; auto).
    destruct i as [|i], j as [|j]; try lia.
    + rewrite raw_running_sum_zero, raw_running_sum_cons.
      pose proof (@running_sum_bounds rs Hrs j d). lia.
    + rewrite !raw_running_sum_cons.
      specialize (IH Hrs i j d). lia.
Qed.

Lemma durations_nonneg (rows : list Raw.Lap) :
  (forall r val, In r rows -> Raw.LapTime r = Some val -> 0 <= val) ->
  forall r, In r rows -> 0 <= Raw.duration r.
Proof.
  intros H r Hr. unfold Raw.duration.
  destruct (Raw.LapTime r) as [val|] eqn:E; [now apply (H r)|lia].
Qed.

(** X2: when no lap time is negative and no running total overflows, the
    cumulative time assigned by the view builders does not decrease along the
    laps of a driver: of two rows of the same driver that have a cumulative
    time, the later one has the greater or equal one. *)
Theorem cumulative_time_monotone_per_driver
        (rows : list Raw.Lap) (r1 r2 : Raw.Row) (c1 c2 : Z) :
  (forall r val, In r rows -> Raw.LapTime r = Some val -> 0 <= val) ->
  Raw.no_overflow rows ->
  In r1 (Raw.with_cumulative rows) -> In r2 (Raw.with_cumulative rows) ->
  Raw.Driver (Raw.lap r1) = Raw.Driver (Raw.lap r2) ->
  (Raw.label r1 <= Raw.label r2)%nat ->
  Raw.CumulativeTime r1 = Some c1 -> Raw.CumulativeTime r2 = Some c2 ->
  c1 <= c2.
Proof.
  intros Hpos Hno H1 H2 Hd Hl E1 E2.
  destruct (@raw_with_cumulative_running_sum rows r1 Hno H1) as [_ Hc1].
  destruct (@raw_with_cumulative_running_sum rows r2 Hno H2) as [_ Hc2].
  rewrite E1 in Hc1. rewrite E2 in Hc2.
  destruct (Raw.LapTime (Raw.lap r1)); [|discriminate].
  destruct (Raw.LapTime (Raw.lap r2)); [|discriminate].
  cbn [option_map] in *. injection Hc1 as ->. injection Hc2 as ->.
  rewrite Hd. apply running_sum_mono; [|exact Hl].
  now apply durations_nonneg.
Qed.

Lemma partly_timed_no_overflow : Raw.no_overflow partly_timed_session.
Proof.
  apply no_overflow_bounded.
  - intros r Hr. vm_compute in Hr.
    repeat (destruct Hr as [<-|Hr]; [vm_compute; discriminate|]).
    contradiction.
  - vm_compute. discriminate.
Qed.

Lemma cumulative_time_monotone_per_driver_witness :
  let rows := partly_timed_session in
  let r1 := Raw.mkRow 2 (raw_lap "B" 1 (Some 92)) (Some 92) in
  let r2 := Raw.mkRow 3 (raw_lap "B" 2 (Some 88)) (Some 180) in
  (forall r val, In r rows -> Raw.LapTime r = Some val -> 0 <= val) /\
  Raw.no_overflow rows /\
  In r1 (Raw.with_cumulative rows) /\ In r2 (Raw.with_cumulative rows) /\
  Raw.Driver (Raw.lap r1) = Raw.Driver (Raw.lap r2) /\
  (Raw.label r1 <= Raw.label r2)%nat /\
  Raw.CumulativeTime r1 = Some 92 /\ Raw.CumulativeTime r2 = Some 180 /\
  92 <= 180.
Proof.
  intros rows r1 r2.
  assert (H0 : forall r val, In r rows -> Raw.LapTime r = Some val -> 0 <= val).
  { intros r val Hr. vm_compute in Hr.
    repeat (destruct Hr as [<-|Hr];
            [cbn; intro E; try discriminate; injection E as <-; lia|]).
    contradiction. }
  assert (H1 : In r1 (Raw.with_cumulative rows)) by (vm_compute; auto 10).
  assert (H2 : In r2 (Raw.with_cumulative rows)) by (vm_compute; auto 10).
  assert (H3 : Raw.Driver (Raw.lap r1) = Raw.Driver (Raw.lap r2))
    by reflexivity.
  assert (H4 : (Raw.label r1 <= Raw.label r2)%nat) by (simpl; lia).
  assert (H5 : Raw.CumulativeTime r1 = Some 92) by reflexivity.
  assert (H6 : Raw.CumulativeTime r2 = Some 180) by reflexivity.
  split; [exact H0|]. split; [exact partly_timed_no_overflow|].
  repeat (split; [assumption|]).
  exact (@cumulative_time_monotone_per_driver
           rows r1 r2 92 180 H0 partly_timed_no_overflow H1 H2 H3 H4 H5 H6).
Defined.

(** When a running total overflows, the stored cumulative time of a driver
    can fall from one lap to the next. *)
Example overflowing_total_decreases :
  map (fun r => (Raw.Driver (Raw.lap r), Raw.lap_number r,
                 Raw.CumulativeTime r))
      (Raw.with_cumulative overflowing_session)
  = [("A", 1, Some 4611686018427387904);
     ("A", 2, Some (- 9223372036854775807));
     ("B", 1, Some 10); ("B", 2, Some 20)].
Proof. reflexivity. Qed.

(** X3: with any sorting of the leader laps and of the weather samples by
    time, [get_weather_data_by_lap] returns exactly when every lap number has
    a row with a cumulative time.  The result then has one row for each
    distinct lap number of the session; its rows follow the leader laps in an
    order of their times and carry their lap numbers; and where a weather
    sample was taken at the very time of a leader lap, the readings attached
    to that lap are those of a sample taken at that time. *)
Theorem weather_by_lap_one_row_per_lap_in_time_order
        (sort_laps : list Raw.Row -> list Raw.Row)
        (sort_weather : list Weather.t -> list Weather.t)
        (rows : list Raw.Lap) (weather : list Weather.t) :
  (forall l, Permutation l (sort_laps l)) ->
  (forall l, time_ordered (sort_laps l)) ->
  (forall ws, Permutation ws (sort_weather ws)) ->
  (forall ws, by_time_sorted (sort_weather ws)) ->
  let laps := Raw.with_cumulative rows in
  ((exists out, Raw.get_weather_data_by_lap sort_laps sort_weather rows weather
                = Some out)
   <-> every_lap_has_total laps) /\
  (forall out,
      Raw.get_weather_data_by_lap sort_laps sort_weather rows weather
      = Some out ->
      NoDup (map wl_LapNumber out) /\
      (forall n, In n (map wl_LapNumber out) <-> In n (map Raw.LapNumber rows)) /\
      exists leaders ordered,
        Raw.leader_laps laps = Some leaders /\
        Permutation leaders ordered /\
        time_ordered ordered /\
        Forall2
          (fun l o =>
             wl_LapNumber o = Raw.lap_number l /\
             forall smp, In smp weather ->
                         Weather.Time smp = Raw.Time (Raw.lap l) ->
                         exists smp', In smp' weather /\
                                      Weather.Time smp' = Raw.Time (Raw.lap l) /\
                                      wl_readings o
                                      = Some (Weather.readings smp'))
          ordered out).
Proof.
  intros Hlp Hls Hwp Hws laps.
  assert (Hs : Raw.labels_increasing laps) by apply raw_with_cumulative_labels.
  split.
  { rewrite <- (@raw_leader_laps_total laps Hs).
    unfold Raw.get_weather_data_by_lap. fold laps.
    destruct (Raw.leader_laps laps) as [leaders|].
    - split; eauto.
    - split; intros [v E]; discriminate. }
  intros out Hout. unfold Raw.get_weather_data_by_lap in Hout. fold laps in Hout.
  destruct (Raw.leader_laps laps) as [leaders|] eqn:H; [|discriminate].
  injection Hout as <-.
  destruct (@raw_leader_laps_inv laps leaders Hs H) as [_ [_ Hk]].
  unfold laps in Hk. rewrite raw_with_cumulative_LapNumber in Hk.
  assert (Hperm : Permutation (group_keys (map Raw.LapNumber rows))
                              (map Raw.lap_number (sort_laps leaders)))
    by (rewrite <- Hk; apply Permutation_map, Hlp).
  assert (E : map wl_LapNumber
                  (map (fun l =>
                          mkWeatherLap (Raw.lap_number l)
                            (option_map Weather.readings
                               (asof_nearest (Raw.Time (Raw.lap l))
                                             (sort_weather weather))))
                       (sort_laps leaders))
              = map Raw.lap_number (sort_laps leaders))
    by (rewrite map_map; reflexivity).
  rewrite E.
  split; [eapply Permutation_NoDup; [exact Hperm|apply group_keys_NoDup]|].
  split.
  { intro n. rewrite <- (group_keys_In (map Raw.LapNumber rows) n). split.
    - apply Permutation_in, Permutation_sym, Hperm.
    - apply Permutation_in, Hperm. }
  exists leaders, (sort_laps leaders).
  split; [reflexivity|]. split; [apply Hlp|]. split; [apply Hls|].
  apply Forall2_map_same. intros l _. cbn [wl_LapNumber wl_readings].
  split; [reflexivity|]. intros smp Hsmp Ht.
  destruct (@asof_nearest_spec (Raw.Time (Raw.lap l)) (sort_weather weather))
    as [r [Hr [Hin Hmin]]].
  - apply Hws.
  - intro E0. pose proof (Hwp weather) as Hp. rewrite E0 in Hp.
    apply Permutation_sym, Permutation_nil in Hp. rewrite Hp in Hsmp.
    contradiction.
  - exists r. rewrite Hr. cbn [option_map].
    split; [eapply Permutation_in; [apply Permutation_sym, Hwp|exact Hin]|].
    split; [|reflexivity].
    assert (Hd : Z.abs (Weather.Time r - Raw.Time (Raw.lap l))
                 <= Z.abs (Weather.Time smp - Raw.Time (Raw.lap l))).
    { apply Hmin. eapply Permutation_in; [apply Hwp|exact Hsmp]. }
    lia.
Qed.

Lemma weather_by_lap_one_row_per_lap_in_time_order_witness :
  let sort_laps := sort Raw.by_Time in
  let sort_weather := sort by_weather_Time in
  let rows := raw_timed_session in
  let weather := example_weather in
  let laps := Raw.with_cumulative rows in
  (forall l, Permutation l (sort_laps l)) /\
  (forall l, time_ordered (sort_laps l)) /\
  (forall ws, Permutation ws (sort_weather ws)) /\
  (forall ws, by_time_sorted (sort_weather ws)) /\
  ((exists out, Raw.get_weather_data_by_lap sort_laps sort_weather rows weather
                = Some out)
   <-> every_lap_has_total laps) /\
  (forall out,
      Raw.get_weather_data_by_lap sort_laps sort_weather rows weather
      = Some out ->
      NoDup (map wl_LapNumber out) /\
      (forall n, In n (map wl_LapNumber out) <-> In n (map Raw.LapNumber rows)) /\
      exists leaders ordered,
        Raw.leader_laps laps = Some leaders /\
        Permutation leaders ordered /\
        time_ordered ordered /\
        Forall2
          (fun l o =>
             wl_LapNumber o = Raw.lap_number l /\
             forall smp, In smp weather ->
                         Weather.Time smp = Raw.Time (Raw.lap l) ->
                         exists smp', In smp' weather /\
                                      Weather.Time smp' = Raw.Time (Raw.lap l) /\
                                      wl_readings o
                                      = Some (Weather.readings smp'))
          ordered out).
Proof.
  intros sort_laps sort_weather rows weather laps.
  assert (H1 : forall l, Permutation l (sort_laps l))
    by (intro l; apply sort_perm).
  assert (H2 : forall l, time_ordered (sort_laps l))
    by (intro l; exact (sort_by_key_sorted
                          (fun r => Raw.Time (Raw.lap r)) l)).
  assert (H3 : forall ws, Permutation ws (sort_weather ws))
    by (intro ws; apply sort_perm).
  assert (H4 : forall ws, by_time_sorted (sort_weather ws))
    by (intro ws; exact (sort_by_key_sorted Weather.Time ws)).
  split; [exact H1|]. split; [exact H2|]. split; [exact H3|].
  split; [exact H4|].
  exact (@weather_by_lap_one_row_per_lap_in_time_order
           sort_laps sort_weather rows weather H1 H2 H3 H4).
Defined.

(** On the timed session with a stable sort the rows come out as the laps 1,
    2, 3 with the samples nearest to the leaders' times. *)
Example raw_example_weather_by_lap :
  option_map (map (fun o => (wl_LapNumber o,
                             option_map AirTemp (wl_readings o))))
             (Raw.get_weather_data_by_lap (sort Raw.by_Time)
                                          (sort by_weather_Time)
                                          raw_timed_session example_weather)
  = option_map (fun r => map (fun o => (wl_LapNumber o,
                                        option_map AirTemp (wl_readings o)))
                             (fst r))
               (get_weather_data_by_lap example_loaded example_world).
Proof. reflexivity. Qed.

(* ================================================================== *)
(** * Further properties of the overlays *)








(* ================================================================== *)
(** * Further properties of the race trace *)

Lemma gaps_df_In (L : list Row) (ref : list (Z * Z)) (g : GapRow) :
  In g (gaps_df L ref) <->
  exists x c, In x L /\ In (LapNumber x, c) ref /\
              g = mkGap (LapNumber x) (CumulativeTime x) c
                        (total_seconds (CumulativeTime x - c)).
Proof.
  unfold gaps_df. rewrite in_flat_map. split.
  - intros [x [Hx Hg]]. apply in_map_iff in Hg. destruct Hg as [[n c] [E Hp]].
    apply filter_In in Hp. destruct Hp as [Hp Hn]. cbn [fst snd] in *.
    apply Z.eqb_eq in Hn. subst n. exists x, c. auto.
  - intros [x [c [Hx [Hp E]]]]. exists x. split; [exact Hx|].
    apply in_map_iff. exists (LapNumber x, c). split; [now rewrite E|].
    apply filter_In. split; [exact Hp|]. cbn [fst]. apply Z.eqb_refl.
Qed.

Lemma set_index_LapNumber_In (L : list Row) (n c : Z) :
  In (n, c) (set_index_LapNumber L)
  <-> exists x, In x L /\ LapNumber x = n /\ CumulativeTime x = c.
Proof.
  unfold set_index_LapNumber. rewrite in_map_iff. split.
  - intros [x [E Hx]]. injection E as <- <-. eauto.
  - intros [x [Hx [<- <-]]]. eauto.
Qed.

Lemma total_seconds_opp (a b : Z) :
  (total_seconds (a - b) == - total_seconds (b - a))%Q.
Proof. unfold total_seconds, Qeq, Qopp. simpl. lia. Qed.

(** X7: with an explicit reference driver the join is an inner join on the
    lap number: the line of a driver has a point at a lap number exactly when
    both that driver and the reference driver have a lap with that number,
    the other laps being dropped without notice; and each gap of a driver to
    the reference is the opposite of a gap of the reference to that driver at
    the same lap number. *)
Theorem race_trace_explicit_reference_inner_join
        (get_driver_style : string -> Session -> Style)
        (s : Session) (rows : list Lap.t) (d e : string) :
  let laps := with_cumulative rows in
  e <> "average" -> e <> "leader" -> driver_rows e laps <> [] ->
  exists ref title ylabel,
    reference e laps = Some (ref, title, ylabel) /\
    (forall n, In n (xdata (trace_line get_driver_style s laps ref d)) <->
               In n (map LapNumber (driver_rows d laps)) /\
               In n (map LapNumber (driver_rows e laps))) /\
    (forall g, In g (gaps_df (driver_rows d laps) ref) ->
               exists g',
                 In g' (gaps_df (driver_rows e laps)
                                (set_index_LapNumber (driver_rows d laps))) /\
                 g_LapNumber g' = g_LapNumber g /\
                 (Gap g' == - Gap g)%Q).
Proof.
  intros laps Ha Hl Hrows.
  exists (set_index_LapNumber (driver_rows e laps)).
  eexists. eexists. split.
  { unfold reference.
    destruct (String.eqb_spec e "average") as [|_]; [contradiction|].
    destruct (String.eqb_spec e "leader") as [|_]; [contradiction|].
    destruct (driver_rows e laps); [contradiction|reflexivity]. }
  split.
  - intro n. cbn [trace_line xdata]. rewrite in_map_iff. split.
    + intros [g [Hn Hg]]. apply gaps_df_In in Hg.
      destruct Hg as [x [c [Hx [Hp E]]]]. subst g. cbn [g_LapNumber] in Hn.
      subst n. split; [now apply in_map|].
      apply set_index_LapNumber_In in Hp. destruct Hp as [y [Hy [Hyn _]]].
      rewrite <- Hyn. now apply in_map.
    + intros [Hd He]. apply in_map_iff in Hd. destruct Hd as [x [Hxn Hx]].
      apply in_map_iff in He. destruct He as [y [Hyn Hy]].
      exists (mkGap (LapNumber x) (CumulativeTime x) (CumulativeTime y)
                    (total_seconds (CumulativeTime x - CumulativeTime y))).
      split; [exact Hxn|]. apply gaps_df_In. exists x, (CumulativeTime y).
      split; [exact Hx|]. split; [|reflexivity].
      apply set_index_LapNumber_In. exists y. split; [exact Hy|].
      split; [congruence|reflexivity].
  - intros g Hg. apply gaps_df_In in Hg.
    destruct Hg as [x [c [Hx [Hp E]]]]. subst g.
    apply set_index_LapNumber_In in Hp. destruct Hp as [y [Hy [Hyn Hc]]].
    subst c.
    exists (mkGap (LapNumber y) (CumulativeTime y) (CumulativeTime x)
                  (total_seconds (CumulativeTime y - CumulativeTime x))).
    cbn [g_LapNumber Gap]. split; [|split; [exact Hyn|apply total_seconds_opp]].
    apply gaps_df_In. exists y, (CumulativeTime x).
    split; [exact Hy|]. split; [|reflexivity].
    apply set_index_LapNumber_In. exists x. auto.
Qed.

Lemma race_trace_explicit_reference_inner_join_witness :
  let laps := with_cumulative example_session in
  "B" <> "average" /\ "B" <> "leader" /\ driver_rows "B" laps <> [] /\
  exists ref title ylabel,
    reference "B" laps = Some (ref, title, ylabel) /\
    (forall n, In n (xdata (trace_line plain_style example_loaded laps ref "A"))
               <->
               In n (map LapNumber (driver_rows "A" laps)) /\
               In n (map LapNumber (driver_rows "B" laps))) /\
    (forall g, In g (gaps_df (driver_rows "A" laps) ref) ->
               exists g',
                 In g' (gaps_df (driver_rows "B" laps)
                                (set_index_LapNumber (driver_rows "A" laps))) /\
                 g_LapNumber g' = g_LapNumber g /\
                 (Gap g' == - Gap g)%Q).
Proof.
  intro laps.
  assert (H1 : "B" <> "average") by discriminate.
  assert (H2 : "B" <> "leader") by discriminate.
  assert (H3 : driver_rows "B" laps <> []) by (vm_compute; discriminate).
  repeat (split; [assumption|]).
  exact (@race_trace_explicit_reference_inner_join
           plain_style example_loaded example_session "A" "B" H1 H2 H3).
Defined.









(* ================================================================== *)
(** * Further properties of the tyre strategy *)

(** Insertion sort orders a list by any transitive relation that the test
    decides one way or the other. *)
Section SortedByRelation.
Variable A : Type.
Variable leb : A -> A -> bool.
Variable R : A -> A -> Prop.
Hypothesis leb_true : forall a b, leb a b = true -> R a b.
Hypothesis leb_false : forall a b, leb a b = false -> R b a.
Hypothesis R_trans : forall a b c, R a b -> R b c -> R a c.

Lemma insert_sorted_rel (x : A) (l : list A) :
  StronglySorted R l -> StronglySorted R (insert_sorted leb x l).
Proof.
  induction 1 as [|y l Hs IH Hy]; simpl.
  - repeat constructor.
  - destruct (leb x y) eqn:E.
    + constructor; [now constructor|].
      constructor; [now apply leb_true|].
      rewrite Forall_forall in *. intros z Hz.
      apply R_trans with y; [now apply leb_true|now apply Hy].
    + constructor; [exact IH|].
      rewrite Forall_forall in *. intros z Hz.
      apply (Permutation_in _ (Permutation_sym (insert_sorted_perm leb x l)))
        in Hz.
      destruct Hz as [<-|Hz]; [now apply leb_false|now apply Hy].
Qed.

Lemma sort_sorted_rel (l : list A) : StronglySorted R (sort leb l).
Proof.
  induction l as [|x l IH]; simpl; [constructor|].
  now apply insert_sorted_rel.
Qed.
End SortedByRelation.

Lemma string_lt_trans (a b c : string) :
  String_as_OT.lt a b -> String_as_OT.lt b c -> String_as_OT.lt a c.
Proof. apply String_as_OT.lt_strorder. Qed.

Lemma string_lt_irrefl (a : string) : ~ String_as_OT.lt a a.
Proof. apply String_as_OT.lt_strorder. Qed.

Lemma key_lt_trans (a b c : StintKey) : key_lt a b -> key_lt b c -> key_lt a c.
Proof.
  destruct a as [[d1 s1] c1], b as [[d2 s2] c2], c as [[d3 s3] c3].
  unfold key_lt.
  intros [H1|[E1 [H1|[F1 H1]]]] [H2|[E2 [H2|[F2 H2]]]]; subst;
    first [ left; eauto using string_lt_trans; fail
          | right; split; [reflexivity|];
            first [ left; lia
                  | right; split; [reflexivity|];
                    eauto using string_lt_trans ] ].
Qed.

Lemma key_lt_irrefl (a : StintKey) : ~ key_lt a a.
Proof.
  destruct a as [[d s] c]. unfold key_lt.
  intros [H|[_ [H|[_ H]]]];
    [exact (string_lt_irrefl H)|lia|exact (string_lt_irrefl H)].
Qed.

Lemma key_le_trans (a b c : StintKey) : key_le a b -> key_le b c -> key_le a c.
Proof.
  intros [->|H1] [->|H2]; [left; reflexivity|now right|now right|].
  right. now apply key_lt_trans with b.
Qed.

Lemma key_leb_true (a b : StintKey) : key_leb a b = true -> key_le a b.
Proof.
  destruct a as [[d1 s1] c1], b as [[d2 s2] c2]. unfold key_leb, key_le, key_lt.
  destruct (String_as_OT.compare_spec d1 d2) as [Ed|Hd|Hd];
    [|auto|discriminate].
  destruct (Z.compare_spec s1 s2) as [Es|Hs|Hs]; [|auto|discriminate].
  unfold String_as_OT.eq in *.
  destruct (String_as_OT.compare_spec c1 c2) as [Ec|Hc|Hc];
    [unfold String_as_OT.eq in *; subst; auto|auto 6|discriminate].
Qed.

Lemma key_leb_false (a b : StintKey) : key_leb a b = false -> key_le b a.
Proof.
  destruct a as [[d1 s1] c1], b as [[d2 s2] c2]. unfold key_leb, key_le, key_lt.
  destruct (String_as_OT.compare_spec d1 d2) as [Ed|Hd|Hd];
    [|discriminate|auto].
  destruct (Z.compare_spec s1 s2) as [Es|Hs|Hs]; [|discriminate|auto 6].
  unfold String_as_OT.eq in *.
  destruct (String_as_OT.compare_spec c1 c2) as [Ec|Hc|Hc];
    [discriminate|discriminate|auto 8].
Qed.

Lemma key_le_NoDup_lt (l : list StintKey) :
  StronglySorted key_le l -> NoDup l -> StronglySorted key_lt l.
Proof.
  induction 1 as [|x l Hs IH Hx]; intro Hnd; constructor.
  - apply IH. now inversion Hnd.
  - inversion Hnd as [|? ? Hnot _]; subst.
    rewrite Forall_forall in *. intros y Hy.
    destruct (Hx y Hy) as [E|H]; [|exact H]. subst y. contradiction.
Qed.

Lemma stints_of_keys (rows : list Lap.t) :
  map stint_key (stints_of rows)
  = sort key_leb (nodup key_eq_dec (present_keys rows)).
Proof.
  unfold stints_of.
  assert (H : forall k,
             In k (sort key_leb (nodup key_eq_dec (present_keys rows)))
             -> In k (present_keys rows)).
  { intros k Hk. apply sort_In in Hk. now apply nodup_In in Hk. }
  induction (sort key_leb (nodup key_eq_dec (present_keys rows)))
    as [|k ks IH]; simpl; [reflexivity|].
  rewrite map_app, IH by (intros; apply H; simpl; auto).
  assert (Hk : In k (present_keys rows)) by (apply H; simpl; auto).
  apply present_keys_In in Hk. destruct Hk as [r [Hr Hin]].
  assert (Hg : In r (stint_group k rows)) by (apply stint_group_In; auto).
  destruct (stint_group k rows) as [|x g] eqn:E; [contradiction|].
  destruct k as [[d st] c]. reflexivity.
Qed.

Lemma stints_of_driver_stints (rows : list Lap.t) (st : StintRow) :
  In st (stints_of rows) ->
  In st (driver_stints (st_Driver st) (stints_of rows)).
Proof.
  intro H. apply filter_In. split; [exact H|apply String.eqb_refl].
Qed.

Lemma stint_span_nonempty (rows : list Lap.t) (st : StintRow) :
  In st (stints_of rows) -> st_min st <= st_max st.
Proof.
  intro Hst. apply stints_of_driver_stints in Hst.
  destruct (@driver_stints_In _ rows st Hst) as [_ Hagg].
  assert (Hin : In st (agg_min_max (stint_key st)
                  (map Lap.LapNumber (stint_group (stint_key st) rows))))
    by (rewrite Hagg; simpl; auto).
  destruct (@agg_min_max_In _ _ st Hin) as [_ [_ [Hm [_ Hspan]]]].
  destruct (Hspan _ Hm) as [_ Hle]. exact Hle.
Qed.

(** X10: the stint table has one row for each distinct (driver, stint,
    compound) combination recorded in the lap table, in strictly ascending
    lexical order of the combinations (driver, then stint, then compound);
    a lap whose stint or compound is missing belongs to no combination.  The
    span of a row runs from the smallest to the greatest lap number of the
    laps of its combination, both of which are lap numbers of such laps, and
    every lap with a recorded combination lies within the span of that
    combination. *)
Theorem stints_one_row_per_group (rows : list Lap.t) :
  StronglySorted key_lt (map stint_key (stints_of rows)) /\
  NoDup (map stint_key (stints_of rows)) /\
  (forall k, In k (map stint_key (stints_of rows)) <->
             exists r, In r rows /\ key_of r = Some k) /\
  (forall st, In st (stints_of rows) ->
              st_min st <= st_max st /\
              exists r1 r2,
                In r1 rows /\ In r2 rows /\
                key_of r1 = Some (stint_key st) /\
                key_of r2 = Some (stint_key st) /\
                Lap.LapNumber r1 = st_min st /\
                Lap.LapNumber r2 = st_max st) /\
  (forall r k, In r rows -> key_of r = Some k ->
               exists st, In st (stints_of rows) /\
                          stint_key st = k /\
                          in_span (Lap.LapNumber r) st).
Proof.
  assert (Hnd : NoDup (map stint_key (stints_of rows)))
    by (rewrite stints_of_keys; apply sort_NoDup, NoDup_nodup).
  split.
  { apply key_le_NoDup_lt; [|exact Hnd]. rewrite stints_of_keys.
    apply sort_sorted_rel.
    - exact key_leb_true.
    - exact key_leb_false.
    - exact key_le_trans. }
  split; [exact Hnd|].
  split.
  { intro k. rewrite stints_of_keys, sort_In, nodup_In.
    apply present_keys_In. }
  split.
  - intros st Hst. split; [exact (@stint_span_nonempty rows st Hst)|].
    apply stints_of_driver_stints in Hst.
    destruct (@span_ends _ rows st Hst)
      as [r1 [r2 [H1 [H2 [Hk1 [Hk2 [Hmin Hmax]]]]]]].
    exists r1, r2. tauto.
  - intros r k Hr Hk.
    destruct (@lap_in_own_span rows r k Hr Hk) as [st [Hst [Hks Hspan]]].
    exists st. apply filter_In in Hst. tauto.
Qed.

(** X11: the colour of a compound is the one the table gives it, and
    '#FFFFFF' when the table has no entry for it. *)
Theorem compound_color_lookup
        (table : list (string * string)) (compound : string) :
  (~ In compound (map fst table) ->
   compound_color table compound = "#FFFFFF") /\
  (In compound (map fst table) ->
   In (compound, compound_color table compound) table) /\
  (NoDup (map fst table) ->
   forall color, In (compound, color) table ->
                 compound_color table compound = color).
Proof.
  induction table as [|[k c] table IH]; simpl.
  - repeat split; intros; tauto.
  - destruct IH as [IH1 [IH2 IH3]].
    destruct (String.eqb_spec k compound) as [->|N].
    + split; [intro H; exfalso; apply H; auto|].
      split; [intros _; auto|].
      intros Hnd color [E|Hin]; [now injection E|].
      inversion Hnd as [|? ? Hnot _]; subst. exfalso. apply Hnot.
      change compound with (fst (compound, color)). now apply in_map.
    + split; [intro H; apply IH1; tauto|].
      split; [intros [E|H]; [contradiction|right; now apply IH2]|].
      intros Hnd color [E|Hin]; [injection E as E _; contradiction|].
      inversion Hnd; subst. now apply IH3.
Qed.


Lemma flat_map_ext_on (A B : Type) (g h : A -> list B) (l : list A) :
  (forall a, In a l -> g a = h a) -> flat_map g l = flat_map h l.
Proof.
  induction l as [|a l IH]; intro H; simpl; [reflexivity|].
  rewrite (H a) by (simpl; auto). f_equal. apply IH.
  intros b Hb. apply H. simpl. auto.
Qed.

Section TyreStrategy.
Variable COMPOUND_COLORS : list (string * string).

Lemma add_bars_nil (ax : Axes) : add_bars ax [] [] = ax.
Proof. destruct ax. unfold add_bars. simpl. now rewrite !app_nil_r. Qed.

Lemma fold_draw_stint (driver : string) (sts : list StintRow) :
  forall ax,
    fold_left (draw_stint COMPOUND_COLORS driver) sts ax
    = add_bars ax (map (stint_bar COMPOUND_COLORS driver) sts)
               (map (stint_text driver) sts).
Proof.
  induction sts as [|st sts IH]; intro ax; simpl.
  - now rewrite add_bars_nil.
  - rewrite IH. unfold add_bars, draw_stint, barh, text, stint_bar, stint_text.
    simpl. now rewrite <- !app_assoc.
Qed.

Lemma fold_draw_drivers (stints : list StintRow) (ds : list string) :
  forall ax,
    fold_left (fun ax driver =>
                 fold_left (draw_stint COMPOUND_COLORS driver)
                           (driver_stints driver stints) ax)
              ds ax
    = add_bars ax
        (flat_map (fun d => map (stint_bar COMPOUND_COLORS d)
                                (driver_stints d stints)) ds)
        (flat_map (fun d => map (stint_text d) (driver_stints d stints)) ds).
Proof.
  induction ds as [|d ds IH]; intro ax; simpl.
  - now rewrite add_bars_nil.
  - rewrite IH, fold_draw_stint. unfold add_bars. simpl.
    now rewrite <- !app_assoc.
Qed.

(** Restricting the stint table to the drivers to plot does not change the
    stints of one of them. *)
Lemma driver_stints_selected (d : string) (ds : list string)
      (stints : list StintRow) :
  In d ds ->
  driver_stints d (filter (fun st => isin (st_Driver st) ds) stints)
  = driver_stints d stints.
Proof.
  intro Hd. unfold driver_stints.
  induction stints as [|st stints IH]; simpl; [reflexivity|].
  destruct (isin (st_Driver st) ds) eqn:E; simpl; rewrite IH; [reflexivity|].
  destruct (String.eqb_spec (st_Driver st) d) as [Ed|_]; [|reflexivity].
  rewrite Ed in E. rewrite (proj2 (isin_In d ds) Hd) in E. discriminate.
Qed.

Lemma plot_tyre_strategy_run (s : Session)
      (drivers_to_plot : option (list string)) (w : World) (f : LapsFrame) :
  nth_error (heap w) (laps s) = Some f ->
  let ds := default_drivers s drivers_to_plot in
  let stints := stints_of (frame_rows f) in
  plot_tyre_strategy COMPOUND_COLORS s drivers_to_plot w
  = Some (set_legend (map fst COMPOUND_COLORS)
            (invert_yaxis
               (set_grid false
                  (set_labels (String.append (event s) " - Tyre Strategy")
                              "Lap Number" "Driver"
                     (add_bars subplots
                        (flat_map (fun d => map (stint_bar COMPOUND_COLORS d)
                                                (driver_stints d stints)) ds)
                        (flat_map (fun d => map (stint_text d)
                                                (driver_stints d stints)) ds))))),
          w).
Proof.
  intros H ds stints. unfold plot_tyre_strategy, load, bind, ret, read.
  rewrite H. fold ds. rewrite fold_draw_drivers. fold stints.
  assert (Eb : flat_map (fun d => map (stint_bar COMPOUND_COLORS d)
                 (driver_stints d
                    (filter (fun st => isin (st_Driver st) ds) stints))) ds
               = flat_map (fun d => map (stint_bar COMPOUND_COLORS d)
                                        (driver_stints d stints)) ds)
    by (apply flat_map_ext_on; intros d Hd; now rewrite driver_stints_selected).
  assert (Et : flat_map (fun d => map (stint_text d)
                 (driver_stints d
                    (filter (fun st => isin (st_Driver st) ds) stints))) ds
               = flat_map (fun d => map (stint_text d)
                                        (driver_stints d stints)) ds)
    by (apply flat_map_ext_on; intros d Hd; now rewrite driver_stints_selected).
  now rewrite Eb, Et.
Qed.

Lemma captions_centred (stints : list StintRow) (ds : list string) :
  Forall2 (fun b t => text_y t = bar_y b /\
                      (text_x t == inject_Z (bar_left b)
                                   + inject_Z (bar_width b) / (2 # 1))%Q)
          (flat_map (fun d => map (stint_bar COMPOUND_COLORS d)
                                  (driver_stints d stints)) ds)
          (flat_map (fun d => map (stint_text d) (driver_stints d stints)) ds).
Proof.
  induction ds as [|d ds IH]; simpl; [constructor|].
  apply Forall2_app; [|exact IH].
  induction (driver_stints d stints) as [|st sts IHs]; simpl; constructor.
  - cbn [stint_text stint_bar text_y text_x bar_y bar_left bar_width].
    split; reflexivity.
  - exact IHs.
Qed.

(** X12: [plot_tyre_strategy] draws, for each driver to plot in turn, one bar
    for each stint of that driver, starting at the first lap of the stint and
    as wide as the stint has lap numbers from first to last, so at least one
    lap wide, with a caption centred on it; every lap of a plotted driver
    whose stint and compound are recorded lies under a bar of that driver; a
    driver with no such lap, in particular one with no lap in the session,
    gets no bar; the vertical axis is inverted and the legend lists the whole
    colour table.  The call changes neither the store nor the printed
    output. *)
Theorem tyre_strategy_bars
        (s : Session) (drivers_to_plot : option (list string))
        (w : World) (f : LapsFrame) :
  nth_error (heap w) (laps s) = Some f ->
  let ds := default_drivers s drivers_to_plot in
  let stints := stints_of (frame_rows f) in
  exists ax,
    plot_tyre_strategy COMPOUND_COLORS s drivers_to_plot w = Some (ax, w) /\
    bars ax = flat_map (fun d => map (stint_bar COMPOUND_COLORS d)
                                     (driver_stints d stints)) ds /\
    Forall2 (fun b t => text_y t = bar_y b /\
                        (text_x t == inject_Z (bar_left b)
                                     + inject_Z (bar_width b) / (2 # 1))%Q)
            (bars ax) (texts ax) /\
    (forall b, In b (bars ax) -> 1 <= bar_width b) /\
    (forall r k, In r (frame_rows f) -> key_of r = Some k ->
                 In (Lap.Driver r) ds ->
                 exists b, In b (bars ax) /\ bar_y b = Lap.Driver r /\
                           bar_left b <= Lap.LapNumber r
                           < bar_left b + bar_width b) /\
    (forall d, (forall r, In r (frame_rows f) -> Lap.Driver r = d ->
                          key_of r = None) ->
               forall b, In b (bars ax) -> bar_y b <> d) /\
    inverted ax = true /\
    legend ax = Some (map fst COMPOUND_COLORS).
Proof.
  intros H ds stints. eexists.
  split; [apply (@plot_tyre_strategy_run s drivers_to_plot w f H)|].
  fold ds stints.
  cbn [bars texts inverted legend set_legend invert_yaxis set_grid set_labels
       add_bars subplots app negb].
  assert (Hbar : forall b,
             In b (flat_map (fun d => map (stint_bar COMPOUND_COLORS d)
                                          (driver_stints d stints)) ds) <->
             exists d st, In d ds /\ In st (driver_stints d stints) /\
                          b = stint_bar COMPOUND_COLORS d st).
  { intro b. rewrite in_flat_map. split.
    - intros [d [Hd Hb]]. apply in_map_iff in Hb.
      destruct Hb as [st [E Hst]]. exists d, st. auto.
    - intros [d [st [Hd [Hst E]]]]. exists d. split; [exact Hd|].
      apply in_map_iff. exists st. auto. }
  split; [reflexivity|]. split; [apply captions_centred|].
  split.
  { intros b Hb. apply Hbar in Hb. destruct Hb as [d [st [_ [Hst ->]]]].
    cbn [stint_bar bar_width]. apply filter_In in Hst. destruct Hst as [Hst _].
    pose proof (@stint_span_nonempty (frame_rows f) st Hst) as Hle.
    lia. }
  split.
  { intros r k Hr Hk Hd.
    destruct (@lap_in_own_span (frame_rows f) r k Hr Hk)
      as [st [Hst [_ Hspan]]].
    exists (stint_bar COMPOUND_COLORS (Lap.Driver r) st).
    split; [apply Hbar; exists (Lap.Driver r), st; auto|].
    cbn [stint_bar bar_y bar_left bar_width]. split; [reflexivity|].
    unfold in_span in Hspan. lia. }
  split; [|split; reflexivity].
  intros d Hno b Hb Hy. apply Hbar in Hb.
  destruct Hb as [d' [st [_ [Hst ->]]]]. cbn [stint_bar bar_y] in Hy. subst d'.
  destruct (@span_ends d (frame_rows f) st Hst) as [r1 [_ [H1 [_ [Hk1 _]]]]].
  destruct (@driver_stints_In d (frame_rows f) st Hst) as [Hd _].
  assert (Hd1 : Lap.Driver r1 = d)
    by (rewrite <- (key_of_Driver r1 Hk1); exact Hd).
  rewrite (Hno r1 H1 Hd1) in Hk1. discriminate.
Qed.

End TyreStrategy.

Lemma tyre_strategy_bars_witness :
  let s := regular_loaded in
  let w := regular_world in
  let f := mkFrame regular_session None in
  let ds := default_drivers s None in
  let stints := stints_of (frame_rows f) in
  nth_error (heap w) (laps s) = Some f /\
  exists ax,
    plot_tyre_strategy example_colors s None w = Some (ax, w) /\
    bars ax = flat_map (fun d => map (stint_bar example_colors d)
                                     (driver_stints d stints)) ds /\
    Forall2 (fun b t => text_y t = bar_y b /\
                        (text_x t == inject_Z (bar_left b)
                                     + inject_Z (bar_width b) / (2 # 1))%Q)
            (bars ax) (texts ax) /\
    (forall b, In b (bars ax) -> 1 <= bar_width b) /\
    (forall r k, In r (frame_rows f) -> key_of r = Some k ->
                 In (Lap.Driver r) ds ->
                 exists b, In b (bars ax) /\ bar_y b = Lap.Driver r /\
                           bar_left b <= Lap.LapNumber r
                           < bar_left b + bar_width b) /\
    (forall d, (forall r, In r (frame_rows f) -> Lap.Driver r = d ->
                          key_of r = None) ->
               forall b, In b (bars ax) -> bar_y b <> d) /\
    inverted ax = true /\
    legend ax = Some (map fst example_colors).
Proof.
  intros s w f ds stints.
  assert (H : nth_error (heap w) (laps s) = Some f) by reflexivity.
  split; [exact H|].
  exact (@tyre_strategy_bars example_colors s None w f H).
Defined.

(** The bars of the regular session: softs on laps 1 to 3, hards on laps 4
    and 5. *)
Example regular_session_bars :
  option_map (fun r => bars (fst r))
             (plot_tyre_strategy example_colors regular_loaded None
                                 regular_world)
  = Some [ mkBar "A" 3 1 "#da291c"; mkBar "A" 2 4 "#f0f0ec" ].
Proof. reflexivity. Qed.

(* ================================================================== *)
(** * Further properties of the lap times *)

Lemma filter_filter (A : Type) (p q : A -> bool) (l : list A) :
  filter p (filter q l) = filter (fun x => q x && p x) l.
Proof.
  induction l as [|x l IH]; simpl; [reflexivity|].
  destruct (q x); simpl; [destruct (p x)|]; now rewrite IH.
Qed.

Lemma filter_true (A : Type) (l : list A) : filter (fun _ => true) l = l.
Proof. induction l as [|x l IH]; simpl; [reflexivity|now rewrite IH]. Qed.

Lemma retained_laps_filter (p sc fl : bool) (driver_laps : list Lap.t) :
  retained_laps p sc fl driver_laps = filter (kept p sc fl) driver_laps.
Proof.
  unfold retained_laps, kept, exclude_first_lap, exclude_safety_car_laps,
    exclude_pit_laps.
  destruct fl, sc, p; cbv iota; rewrite ?filter_filter;
    try (symmetry; apply filter_true);
    apply filter_ext; intro r;
    destruct (1 <? Lap.LapNumber r),
             (isin (Lap.TrackStatus r) ["4"; "6"; "7"]),
             (isnull (Lap.PitInTime r)), (isnull (Lap.PitOutTime r));
    reflexivity.
Qed.

(** X13: with any setting of the three switches, [plot_lap_times] retains of
    a driver's laps, in their order, exactly those that pass every enabled
    test: lap number above 1, track status none of '4', '6', '7', no pit-in
    and no pit-out time.  With all switches off every lap is retained, and
    filtering twice retains what filtering once does. *)
Theorem retained_laps_pass_enabled_tests
        (p sc fl : bool) (driver_laps : list Lap.t) :
  retained_laps p sc fl driver_laps = filter (kept p sc fl) driver_laps /\
  (forall r, In r (retained_laps p sc fl driver_laps) <->
             In r driver_laps /\
             (fl = true -> 1 < Lap.LapNumber r) /\
             (sc = true -> ~ In (Lap.TrackStatus r) ["4"; "6"; "7"]) /\
             (p = true -> Lap.PitInTime r = None /\ Lap.PitOutTime r = None)) /\
  retained_laps false false false driver_laps = driver_laps /\
  retained_laps p sc fl (retained_laps p sc fl driver_laps)
  = retained_laps p sc fl driver_laps /\
  (List.length (retained_laps p sc fl driver_laps)
   <= List.length driver_laps)%nat.
Proof.
  split; [apply retained_laps_filter|].
  split.
  { intro r. rewrite retained_laps_filter, filter_In.
    assert (Hnull : forall c : option Z, isnull c = true <-> c = None)
      by (intros [z|]; simpl; split; congruence).
    assert (Hst : negb (isin (Lap.TrackStatus r) ["4"; "6"; "7"]) = true
                  <-> ~ In (Lap.TrackStatus r) ["4"; "6"; "7"]).
    { rewrite negb_true_iff. split.
      - intros E Hin. apply isin_In in Hin. congruence.
      - apply isin_false. }
    unfold kept. rewrite !andb_true_iff.
    split.
    - intros [Hr [[H1 H2] H3]]. split; [exact Hr|]. split; [|split].
      + intros ->. now apply Z.ltb_lt.
      + intros ->. now apply Hst.
      + intros ->. apply andb_true_iff in H3. now rewrite <- !Hnull.
    - intros [Hr [H1 [H2 H3]]]. split; [exact Hr|]. split; [split|].
      + destruct fl; [apply Z.ltb_lt; auto|reflexivity].
      + destruct sc; [apply Hst; auto|reflexivity].
      + destruct p; [|reflexivity]. apply andb_true_iff.
        rewrite !Hnull. auto. }
  split; [reflexivity|].
  split.
  { rewrite !retained_laps_filter, filter_filter. apply filter_ext.
    intro r. now rewrite andb_diag. }
  rewrite retained_laps_filter. apply filter_length_le.
Qed.

Section LapTimes.
Variable get_driver_style : string -> Session -> Style.
Variable pick_drivers : string -> list Lap.t -> list Lap.t.

Lemma fold_lap_time_lines (s : Session) (rows : list Lap.t) (p sc fl : bool)
      (ds : list string) :
  forall ax,
    fold_left
      (fun ax driver =>
         let driver_laps :=
           retained_laps p sc fl (pick_drivers driver rows) in
         plot (map Lap.LapNumber driver_laps)
              (map (fun r => total_seconds (Lap.LapTime r)) driver_laps)
              driver (get_driver_style driver s) ax)
      ds ax
    = add_lines ax (map (lap_time_line get_driver_style pick_drivers
                                       s rows p sc fl) ds).
Proof.
  induction ds as [|d ds IH]; intro ax; simpl.
  - now rewrite add_lines_nil.
  - rewrite IH. unfold add_lines, plot, lap_time_line. simpl.
    now rewrite <- app_assoc.
Qed.

(** X14: [plot_lap_times] draws one line for each driver to plot, in the
    order given, whatever [pick_drivers] selects for it: an entry for which
    it selects no lap is not skipped but gets a line without points and an
    entry in the legend.  Each line plots the lap times, in seconds, of the
    retained laps among those selected against their lap numbers.  The grid
    is on, the axis is not inverted, and the call changes neither the store
    nor the printed output. *)
Theorem lap_times_one_line_per_driver
        (s : Session) (drivers_to_plot : option (list string))
        (p sc fl : bool) (w : World) (f : LapsFrame) :
  nth_error (heap w) (laps s) = Some f ->
  let ds := default_drivers s drivers_to_plot in
  exists ax,
    plot_lap_times get_driver_style pick_drivers s drivers_to_plot p sc fl w
    = Some (ax, w) /\
    lines ax = map (lap_time_line get_driver_style pick_drivers
                                  s (frame_rows f) p sc fl) ds /\
    map line_label (lines ax) = ds /\
    legend ax = Some ds /\
    (forall ln, In ln (lines ax) ->
                xdata ln
                = map Lap.LapNumber
                      (filter (kept p sc fl)
                              (pick_drivers (line_label ln) (frame_rows f))) /\
                ydata ln
                = map (fun r => total_seconds (Lap.LapTime r))
                      (filter (kept p sc fl)
                              (pick_drivers (line_label ln) (frame_rows f)))) /\
    (forall d, In d ds -> pick_drivers d (frame_rows f) = [] ->
               exists ln, In ln (lines ax) /\ line_label ln = d /\
                          xdata ln = [] /\ ydata ln = []) /\
    grid ax = Some true /\ inverted ax = false /\ spans ax = [].
Proof.
  intros H ds. eexists. split.
  { unfold plot_lap_times, load, bind, ret, read. rewrite H. fold ds.
    rewrite fold_lap_time_lines. reflexivity. }
  cbn [lines legend grid inverted spans set_grid set_legend set_labels
       add_lines subplots app].
  assert (Hlab : map line_label
                     (map (lap_time_line get_driver_style pick_drivers
                                         s (frame_rows f) p sc fl) ds) = ds).
  { rewrite map_map. cbn [lap_time_line line_label]. apply map_id. }
  split; [reflexivity|]. split; [exact Hlab|].
  split; [now rewrite Hlab|].
  split.
  { intros ln Hln. apply in_map_iff in Hln. destruct Hln as [d [<- _]].
    cbn [lap_time_line xdata ydata line_label].
    rewrite retained_laps_filter. split; reflexivity. }
  split; [|repeat split; reflexivity].
  intros d Hd E.
  exists (lap_time_line get_driver_style pick_drivers
                        s (frame_rows f) p sc fl d).
  split; [now apply in_map|].
  cbn [lap_time_line line_label xdata ydata].
  rewrite E, retained_laps_filter. simpl. auto.
Qed.

End LapTimes.

Lemma lap_times_one_line_per_driver_witness :
  let s := incident_loaded in
  let w := incident_world in
  let f := mkFrame incident_session None in
  let ds := default_drivers s (Some ["a"; "XXX"]) in
  nth_error (heap w) (laps s) = Some f /\
  exists ax,
    plot_lap_times plain_style pick_by_abbreviation s (Some ["a"; "XXX"])
                   true true true w
    = Some (ax, w) /\
    lines ax = map (lap_time_line plain_style pick_by_abbreviation
                                  s (frame_rows f) true true true) ds /\
    map line_label (lines ax) = ds /\
    legend ax = Some ds /\
    (forall ln, In ln (lines ax) ->
                xdata ln
                = map Lap.LapNumber
                      (filter (kept true true true)
                              (pick_by_abbreviation (line_label ln)
                                                    (frame_rows f))) /\
                ydata ln
                = map (fun r => total_seconds (Lap.LapTime r))
                      (filter (kept true true true)
                              (pick_by_abbreviation (line_label ln)
                                                    (frame_rows f)))) /\
    (forall d, In d ds -> pick_by_abbreviation d (frame_rows f) = [] ->
               exists ln, In ln (lines ax) /\ line_label ln = d /\
                          xdata ln = [] /\ ydata ln = []) /\
    grid ax = Some true /\ inverted ax = false /\ spans ax = [].
Proof.
  intros s w f ds.
  assert (H : nth_error (heap w) (laps s) = Some f) by reflexivity.
  split; [exact H|].
  exact (@lap_times_one_line_per_driver plain_style pick_by_abbreviation
           s (Some ["a"; "XXX"]) true true true w f H).
Defined.

(** Lap times of the incident session with the three filters on, the
    selection being by upper-cased abbreviation: the entry 'a' plots lap 5 of
    A, and the unknown driver has an empty line. *)
Example incident_session_lap_times :
  option_map (fun r => map (fun ln => (line_label ln, xdata ln))
                           (lines (fst r)))
             (plot_lap_times plain_style pick_by_abbreviation incident_loaded
                             (Some ["a"; "XXX"]) true true true incident_world)
  = Some [("a", [5]); ("XXX", [])].
Proof. reflexivity. Qed.

(* ================================================================== *)
(** * Complete tables

    On a lap table whose lap times are all present and whose running totals
    fit in 64 bits, the view builders of [Raw] compute what the integer
    definitions compute. *)

Lemma complete_set_column (rows : list Lap.t) :
  forall i accR accB,
    (forall d, accR d = accB d) ->
    (forall k d,
        Raw.in_int64
          (accB d + Raw.running_sum (map Raw.of_complete rows) k d)) ->
    Raw.set_column i (map Raw.of_complete rows)
                   (Raw.cumsum_by_driver accR (map Raw.of_complete rows))
    = map of_complete_row (set_column i rows (cumsum_by_driver accB rows)).
Proof.
  induction rows as [|x rs IH]; intros i accR accB Hacc Hrange;
    [reflexivity|].
  cbn [map Raw.cumsum_by_driver cumsum_by_driver Raw.set_column set_column
       Raw.of_complete Raw.LapTime Raw.Driver].
  assert (Hhead : Raw.in_int64 (accB (Lap.Driver x) + Lap.LapTime x)).
  { pose proof (Hrange 0%nat (Lap.Driver x)) as H.
    cbn [map] in H.
    change (Lap.Driver x) with (Raw.Driver (Raw.of_complete x)) in H at 2.
    rewrite raw_running_sum_head in H. exact H. }
  rewrite Hacc.
  assert (Hw : Raw.wrap64 (accB (Lap.Driver x) + Lap.LapTime x)
               = accB (Lap.Driver x) + Lap.LapTime x).
  { apply wrap64_in_range. unfold Raw.in_int64 in Hhead. lia. }
  rewrite (of_int64_in_range Hhead), Hw.
  unfold of_complete_row at 1. cbn [label lap CumulativeTime Raw.of_complete].
  f_equal. apply IH.
  - intro d. destruct (String.eqb d (Lap.Driver x)); [reflexivity|apply Hacc].
  - intros k d. pose proof (Hrange (S k) d) as H.
    cbn [map] in H. rewrite raw_running_sum_cons in H.
    cbn [Raw.of_complete Raw.Driver] in H. unfold Raw.duration in H.
    cbn [Raw.of_complete Raw.LapTime] in H.
    rewrite (String.eqb_sym d).
    destruct (String.eqb_spec (Lap.Driver x) d) as [Ed|_].
    + subst d.
      replace (accB (Lap.Driver x) + Lap.LapTime x
               + Raw.running_sum (map Raw.of_complete rs) k (Lap.Driver x))
        with (accB (Lap.Driver x)
              + (Lap.LapTime x
                 + Raw.running_sum (map Raw.of_complete rs) k (Lap.Driver x)))
        by ring.
      exact H.
    + exact H.
Qed.

Lemma complete_with_cumulative (rows : list Lap.t) :
  Raw.no_overflow (map Raw.of_complete rows) ->
  Raw.with_cumulative (map Raw.of_complete rows)
  = map of_complete_row (with_cumulative rows).
Proof.
  intro Hno. apply complete_set_column; [reflexivity|].
  intros k d. unfold no_total. apply Hno.
Qed.

Lemma complete_labels (laps : list Row) :
  labels_increasing laps -> Raw.labels_increasing (map of_complete_row laps).
Proof.
  unfold labels_increasing, Raw.labels_increasing. now rewrite map_map.
Qed.

Lemma complete_leader (n : Z) (laps : list Row) :
  labels_increasing laps ->
  leader_list n (map of_complete_row laps)
  = map of_complete_row (leader_of n laps).
Proof.
  intro Hs. unfold leader_list.
  pose proof (@raw_leader_of_spec n (map of_complete_row laps)
                                  (complete_labels Hs)) as HR.
  destruct (raw_leader_of n (map of_complete_row laps)) as [m|] eqn:E.
  - destruct HR as [Hm [Hn _]].
    apply in_map_iff in Hm. destruct Hm as [b [<- Hb]].
    destruct (@leader_of_exists n laps) as [l Hl];
      [apply in_map_iff; exists b; auto|].
    rewrite Hl. cbn [map]. f_equal.
    assert (Hlead : is_leader (map of_complete_row laps) (of_complete_row l)).
    { destruct (@leader_of_spec n laps l Hs) as [Hin [Hln Hmin]];
        [rewrite Hl; simpl; auto|].
      split; [now apply in_map|].
      exists (CumulativeTime l). split; [reflexivity|].
      intros x c' Hx Hxn Hc. apply in_map_iff in Hx.
      destruct Hx as [y [<- Hy]]. cbn in Hc. injection Hc as <-.
      change (LapNumber y = LapNumber l) in Hxn.
      destruct (Hmin y Hy) as [H1 H2]; [congruence|].
      split; [exact H1|]. intro Ec.
      change (label l <= label y)%nat. now apply H2. }
    apply (raw_leader_of_is_leader (of_complete_row l) (complete_labels Hs))
      in Hlead.
    assert (En : Raw.lap_number (of_complete_row l) = n).
    { destruct (@leader_of_spec n laps l Hs) as [_ [Hln _]];
        [rewrite Hl; simpl; auto|exact Hln]. }
    rewrite En in Hlead. congruence.
  - destruct (leader_of n laps) as [|l ls] eqn:El; [reflexivity|].
    exfalso.
    destruct (@leader_of_spec n laps l Hs) as [Hin [Hln _]];
      [rewrite El; simpl; auto|].
    assert (Hnone : Raw.CumulativeTime (of_complete_row l) = None)
      by (apply HR; [now apply in_map|exact Hln]).
    discriminate.
Qed.

Lemma complete_leader_laps (laps : list Row) :
  labels_increasing laps ->
  Raw.leader_laps (map of_complete_row laps)
  = Some (map of_complete_row (leader_laps laps)).
Proof.
  intro Hs.
  rewrite raw_leader_laps_returns.
  - f_equal. rewrite (leader_laps_by_key Hs).
    rewrite map_map.
    change (map (fun x => Raw.lap_number (of_complete_row x)) laps)
      with (map LapNumber laps).
    induction (group_keys (map LapNumber laps)) as [|n ks IH];
      [reflexivity|].
    cbn [flat_map]. rewrite map_app, IH. f_equal. now apply complete_leader.
  - now apply complete_labels.
  - intros x Hx. exists x. split; [exact Hx|]. split; [reflexivity|].
    apply in_map_iff in Hx. destruct Hx as [y [<- _]]. discriminate.
Qed.

(** On a complete table without overflow the working copy, the leader laps
    and the track status view are those of the integer definitions. *)
Lemma complete_tables_agree (rows : list Lap.t) :
  Raw.no_overflow (map Raw.of_complete rows) ->
  Raw.with_cumulative (map Raw.of_complete rows)
  = map of_complete_row (with_cumulative rows) /\
  Raw.leader_laps (Raw.with_cumulative (map Raw.of_complete rows))
  = Some (map of_complete_row (leader_laps (with_cumulative rows))) /\
  Raw.get_track_status_by_lap (map Raw.of_complete rows)
  = Some (track_status (with_cumulative rows)).
Proof.
  intro Hno.
  assert (E : Raw.leader_laps (Raw.with_cumulative (map Raw.of_complete rows))
              = Some (map of_complete_row (leader_laps (with_cumulative rows)))).
  { rewrite (@complete_with_cumulative rows Hno).
    apply complete_leader_laps, with_cumulative_labels. }
  split; [now apply complete_with_cumulative|]. split; [exact E|].
  unfold Raw.get_track_status_by_lap, Raw.track_status. rewrite E.
  cbn [option_map]. unfold track_status. now rewrite map_map.
Qed.
